(** * camera.ui motion controller: normalisation and debounce resolution

    A shallow embedding of [src/controller/motion/motion.controller.js]
    (class [MotionController]): the per-camera timer map [#motionTimers],
    the resolver [#handleMotion], the camera lookup [#getCamera] and the
    HTTP and MQTT message handlers that normalise a raw message into a
    [(triggerType, cameraName, state)] call of the resolver; also the entry
    point [triggerMotion] for external events and the derivation of camera
    names and loopback requests in the SMTP listener.

    JavaScript values are modelled as follows.
    - strings are [string]; a value that may be [undefined] or [null] is an
      [option] ([None] is falsy, and so is the empty string);
    - [#motionTimers] (a [Map] keyed by camera name) is a [gmap string Timer];
    - the handle returned by [setTimeout] is a [Timer] (always truthy);
    - the outside world the controller acts on (the event loop's pending
      timeouts, [controller.emit], [EventController.handle], the logger) is
      recorded in the [World] that every operation threads through. *)

From Stdlib Require Import ZArith String Ascii List Bool Lia.
From stdpp Require Import base option gmap strings list.

Local Open Scope string_scope.
Local Open Scope list_scope.
Local Open Scope Z_scope.

(** ** Data model *)

(** Modelled from the spec: the camera entries of [ConfigService.ui.cameras]
    (the configuration service is not part of the sources); the controller
    reads the three fields below. [motionTimeout] is in seconds. *)
Record CameraConfig := {
  name : string;
  recordOnMovement : bool;
  motionTimeout : Z;
}.

(** Modelled from the spec: the values of [ConfigService.ui.topics], a [Map]
    from MQTT topic to this record. *)
Record TopicMapping := {
  camera : string;
  motion : bool;
  reset : bool;
  motionMessage : string;
  motionResetMessage : string;
}.

(** The [general] settings object read from the interface database; the
    exclusion list may be missing ([generalSettings?.exclude || []]). *)
Record GeneralSettings := {
  atHome : bool;
  exclude : option (list string);
}.

(** The object returned to an adapter. *)
Record Result := {
  error : bool;
  message : string;
}.

(** A timeout handle: the identity the event loop gave it and its delay in
    milliseconds. *)
Record Timer := {
  timer_id : nat;
  timer_delay : Z;
}.

(** [controller.emit('motion', cameraName, triggerType, state, event)]. *)
Record MotionEmit := {
  emit_camera : string;
  emit_trigger : option string;
  emit_state : bool;
  emit_event : string;
}.

(** [EventController.handle(triggerType, cameraName, state)]. *)
Record SinkCall := {
  sink_trigger : option string;
  sink_camera : string;
  sink_state : bool;
}.

(** Lines written through [log]; the JSON text of a result is kept as the
    result itself. *)
Inductive LogLine :=
| LogTimeout (cam : string)
| LogExtern (r : Result) (cam : string)
| LogHttp (r : Result) (cam : option string)
| LogMqtt (r : Result) (cam : option string).

Record World := {
  motionTimers : gmap string Timer;
  pending : gmap nat string;
  next_timer : nat;
  emitted : list MotionEmit;
  handled : list SinkCall;
  logged : list LogLine;
}.

(** A freshly constructed controller. *)
Definition initial : World :=
  {| motionTimers := ∅; pending := ∅; next_timer := 0;
     emitted := []; handled := []; logged := [] |}.

(** ** Primitive effects *)

(** The longest delay a timeout can have, in milliseconds. *)
Definition TIMEOUT_MAX : Z := 2147483647.

(** The delay the runtime gives a timeout: a requested delay that is not
    between 1 and [TIMEOUT_MAX] becomes 1 ms. *)
Definition timeout_delay (after : Z) : Z :=
  if (1 <=? after) && (after <=? TIMEOUT_MAX) then after else 1.

(** [setTimeout(() => { log.info(..., camera.name);
    this.#motionTimers.delete(camera.name) }, delay)]: the callback is
    determined by the camera name it closes over. *)
Definition setTimeout (cam : string) (delay : Z) (w : World) : Timer * World :=
  let t := {| timer_id := next_timer w;
              timer_delay := timeout_delay delay |} in
  (t, {| motionTimers := motionTimers w;
         pending := <[next_timer w := cam]> (pending w);
         next_timer := S (next_timer w);
         emitted := emitted w; handled := handled w; logged := logged w |}).

Definition clearTimeout (t : Timer) (w : World) : World :=
  {| motionTimers := motionTimers w;
     pending := delete (timer_id t) (pending w);
     next_timer := next_timer w;
     emitted := emitted w; handled := handled w; logged := logged w |}.

Definition timers_set (cam : string) (t : Timer) (w : World) : World :=
  {| motionTimers := <[cam := t]> (motionTimers w);
     pending := pending w; next_timer := next_timer w;
     emitted := emitted w; handled := handled w; logged := logged w |}.

Definition timers_delete (cam : string) (w : World) : World :=
  {| motionTimers := delete cam (motionTimers w);
     pending := pending w; next_timer := next_timer w;
     emitted := emitted w; handled := handled w; logged := logged w |}.

Definition controller_emit (e : MotionEmit) (w : World) : World :=
  {| motionTimers := motionTimers w;
     pending := pending w; next_timer := next_timer w;
     emitted := emitted w ++ [e]; handled := handled w; logged := logged w |}.

Definition EventController_handle (c : SinkCall) (w : World) : World :=
  {| motionTimers := motionTimers w;
     pending := pending w; next_timer := next_timer w;
     emitted := emitted w; handled := handled w ++ [c]; logged := logged w |}.

Definition log (l : LogLine) (w : World) : World :=
  {| motionTimers := motionTimers w;
     pending := pending w; next_timer := next_timer w;
     emitted := emitted w; handled := handled w; logged := logged w ++ [l] |}.

Definition set_message (r : Result) (m : string) : Result :=
  {| error := error r; message := m |}.

(** ** The debounce resolver *)

Section Resolver.

(** [#cameras = ConfigService.ui.cameras]; an entry may be [null]. *)
Variable cameras : list (option CameraConfig).

(** [#getCamera]: the first entry that is an object with this name. *)
Definition getCamera (cameraName : string) : option CameraConfig :=
  mjoin (find (fun c => match c with
                        | Some c => String.eqb (name c) cameraName
                        | None => false
                        end) cameras).

Definition presence_atHome (generalSettings : option GeneralSettings) : bool :=
  match generalSettings with
  | Some g => atHome g
  | None => false
  end.

Definition presence_excluded (generalSettings : option GeneralSettings)
    (cameraName : string) : bool :=
  match generalSettings with
  | Some g => match exclude g with
              | Some l => existsb (String.eqb cameraName) l
              | None => false
              end
  | None => false
  end.

(** [#handleMotion(triggerType, cameraName, state, event, result)];
    [generalSettings] is the value the awaited database read yields and
    [state] the truthiness of the argument. The body after the [await] has
    no further suspension point, so one call is one transition of the
    world. *)
Definition handleMotion (triggerType : option string) (cameraName : string)
    (state : bool) (event : string) (result : Result)
    (generalSettings : option GeneralSettings) (w : World) : Result * World :=
  match getCamera cameraName with
  | Some camera =>
      let atHome := presence_atHome generalSettings in
      let cameraExcluded := presence_excluded generalSettings cameraName in
      if atHome && negb cameraExcluded then
        ({| error := false;
            message := "Skip motion trigger. At Home is active and "
                         +:+ cameraName +:+ " is not excluded!" |}, w)
      else
        let result := {| error := false;
                         message := "Handled through extern controller" |} in
        let w := controller_emit
                   {| emit_camera := cameraName; emit_trigger := triggerType;
                      emit_state := state; emit_event := event |} w in
        if recordOnMovement camera then
          let timeout := motionTimers w !! name camera in
          let timeoutConfig :=
            if 0 <=? motionTimeout camera then motionTimeout camera else 1 in
          match timeout with
          | Some timeout =>
              let w := clearTimeout timeout w in
              let w := timers_delete (name camera) w in
              if state then
                (set_message result "Skip motion event, timeout active!", w)
              else
                (result,
                 EventController_handle
                   {| sink_trigger := triggerType; sink_camera := cameraName;
                      sink_state := state |} w)
          | None =>
              let w :=
                if state && (0 <? timeoutConfig) then
                  let '(timer, w) :=
                    setTimeout (name camera) (timeoutConfig * 1000) w in
                  timers_set (name camera) timer w
                else w in
              let w := EventController_handle
                         {| sink_trigger := triggerType;
                            sink_camera := cameraName;
                            sink_state := state |} w in
              (set_message result "Handled through intern controller", w)
          end
        else (result, w)
  | None =>
      ({| error := true;
          message := "Camera '" +:+ cameraName +:+ "' not found" |}, w)
  end.

(** The callback of a pending timeout runs: it logs and deletes the entry
    of the camera it closed over. A timeout that was cleared never runs. *)
Definition expire (id : nat) (w : World) : World :=
  match pending w !! id with
  | Some cam =>
      let w := {| motionTimers := motionTimers w;
                  pending := delete id (pending w);
                  next_timer := next_timer w;
                  emitted := emitted w; handled := handled w;
                  logged := logged w |} in
      timers_delete cam (log (LogTimeout cam) w)
  | None => w
  end.

End Resolver.

(** [triggerMotion(cameraName, state)], used for external events. *)
Definition triggerMotion (cameras : list (option CameraConfig))
    (cameraName : string) (state : bool)
    (generalSettings : option GeneralSettings) (w : World) : World :=
  let result := {| error := true;
                   message := "Custom event could not be handled" |} in
  let '(result, w) :=
    handleMotion cameras (Some "custom") cameraName state "extern" result
      generalSettings w in
  log (LogExtern result cameraName) w.

(** ** String operations used by the HTTP handler *)

(** [s.includes(needle)]. *)
Fixpoint includes (needle s : string) : bool :=
  String.prefix needle s
  || match s with
     | EmptyString => false
     | String _ s' => includes needle s'
     end.

(** [s.split(sep)] for a separator of one character. *)
Fixpoint split (sep : ascii) (s : string) : list string :=
  match s with
  | EmptyString => [EmptyString]
  | String c s' =>
      if Ascii.eqb c sep then EmptyString :: split sep s'
      else match split sep s' with
           | piece :: rest => String c piece :: rest
           | [] => [String c EmptyString]
           end
  end.

(** Truthiness of a value that is a string, [null] or [undefined]. *)
Definition truthy (v : option string) : bool :=
  match v with
  | Some s => negb (String.eqb s "")
  | None => false
  end.

(** [a === b] where [a] may be [undefined] and [b] is a string literal. *)
Definition strict_eq (a : option string) (b : string) : bool :=
  match a with
  | Some a => String.eqb a b
  | None => false
  end.

(** ** The HTTP request handler *)

(** The two fields of [url.parse(request.url)] the handler reads. *)
Record ParsedUrl := {
  pathname : option string;
  query : option string;
}.

Record Response := {
  status : Z;
  body : Result;
}.

(** What the handler does with a request before it answers. *)
Inductive HttpTrigger :=
| HttpMalformed
| HttpThrown
| HttpCall (triggerType : option string) (cameraName : string) (state : bool).

(** Lines 176 to 178: trigger type and state from the path name. *)
Definition http_trigger (path : string) : option string * bool :=
  let triggerType :=
    if includes "/reset" path then Some "reset"
    else split "/" path !! 1%nat in
  let state :=
    if strict_eq triggerType "dorbell" then true
    else if strict_eq triggerType "reset" then false
    else true in
  let triggerType :=
    if strict_eq triggerType "reset" then Some "motion" else triggerType in
  (triggerType, state).

Section Http.

Variable cameras : list (option CameraConfig).

(** [parse] of Node's [url] module. *)
Variable parse : string -> ParsedUrl.

(** [decodeURIComponent]; [None] when it throws a [URIError]. *)
Variable decodeURIComponent : string -> option string.

Definition http_normalize (url : string) : HttpTrigger :=
  if truthy (Some url) then
    let parseurl := parse url in
    if truthy (pathname parseurl) && truthy (query parseurl) then
      match decodeURIComponent (default "" (query parseurl)) with
      | Some cameraName =>
          let '(triggerType, state) :=
            http_trigger (default "" (pathname parseurl)) in
          HttpCall triggerType cameraName state
      | None => HttpThrown
      end
    else HttpMalformed
  else HttpMalformed.

(** The tail of the handler: log the result and write the response. *)
Definition http_respond (result : Result) (cameraName : option string)
    (w : World) : option Response * World :=
  (Some {| status := if error result then 500 else 200; body := result |},
   log (LogHttp result cameraName) w).

(** The ['request'] listener; no response is written when the handler
    throws. *)
Definition http_request (url : string)
    (generalSettings : option GeneralSettings) (w : World)
    : option Response * World :=
  let result := {| error := true; message := "Malformed URL " +:+ url |} in
  match http_normalize url with
  | HttpMalformed => http_respond result None w
  | HttpThrown => (None, w)
  | HttpCall triggerType cameraName state =>
      let '(result, w) :=
        handleMotion cameras triggerType cameraName state "http" result
          generalSettings w in
      http_respond result (Some cameraName) w
  end.

End Http.

(** ** The MQTT message handler *)

Inductive MqttTrigger :=
| MqttUnmapped
| MqttUnresolved
| MqttCall (triggerType : string) (cameraName : string) (state : bool).

(** Lines 235 to 248: [None] is an [undefined] state. *)
Definition mqtt_triggerType (cameraMqttConfig : TopicMapping) : string :=
  if motion cameraMqttConfig then "motion" else "doorbell".

Definition mqtt_state (cameraMqttConfig : TopicMapping) (msg : string)
    : option bool :=
  if String.eqb (mqtt_triggerType cameraMqttConfig) "doorbell" then Some true
  else if reset cameraMqttConfig then
    if String.eqb msg (motionResetMessage cameraMqttConfig) then Some false
    else None
  else if String.eqb msg (motionMessage cameraMqttConfig) then Some true
  else if String.eqb msg (motionResetMessage cameraMqttConfig) then Some false
  else None.

Section Mqtt.

Variable cameras : list (option CameraConfig).

(** [#topics = ConfigService.ui.topics]. *)
Variable topics : gmap string TopicMapping.

Definition mqtt_normalize (topic msg : string) : MqttTrigger :=
  match topics !! topic with
  | Some cameraMqttConfig =>
      match mqtt_state cameraMqttConfig msg with
      | Some state =>
          MqttCall (mqtt_triggerType cameraMqttConfig)
            (camera cameraMqttConfig) state
      | None => MqttUnresolved
      end
  | None => MqttUnmapped
  end.

(** The ['message'] listener; its result is only logged. *)
Definition mqtt_message (topic msg : string)
    (generalSettings : option GeneralSettings) (w : World)
    : Result * World :=
  let result :=
    {| error := true;
       message := "Malformed MQTT message " +:+ msg +:+ " (" +:+ topic
                    +:+ ")" |} in
  let cameraName := camera <$> topics !! topic in
  let '(result, w) :=
    match mqtt_normalize topic msg with
    | MqttCall triggerType cameraName state =>
        handleMotion cameras (Some triggerType) cameraName state "mqtt"
          result generalSettings w
    | MqttUnresolved =>
        ({| error := true;
            message := "The incoming MQTT message (" +:+ msg
                         +:+ ") for the topic (" +:+ topic
                         +:+ ") was not the same as set in config.json. Skip..." |},
         w)
    | MqttUnmapped =>
        ({| error := true;
            message := "Can not assign the MQTT topic (" +:+ topic
                         +:+ ") to a camera!" |}, w)
    end in
  (result, log (LogMqtt result cameraName) w).

End Mqtt.

(** ** Runs of the controller *)

(** What can happen to a controller: a trigger reaches the resolver (with
    the settings the database holds at that moment), or a pending timeout
    runs. *)
Inductive Event :=
| Trigger (triggerType : option string) (cameraName : string) (state : bool)
    (event : string) (result : Result)
    (generalSettings : option GeneralSettings)
| Expire (id : nat).

Definition step (cameras : list (option CameraConfig)) (e : Event)
    (w : World) : World :=
  match e with
  | Trigger triggerType cameraName state event result generalSettings =>
      snd (handleMotion cameras triggerType cameraName state event result
             generalSettings w)
  | Expire id => expire id w
  end.

Definition run (cameras : list (option CameraConfig)) (es : list Event)
    (w : World) : World :=
  foldl (fun w e => step cameras e w) w es.

(** The presence policy suppresses a trigger for this camera. *)
Definition suppressed (generalSettings : option GeneralSettings)
    (cameraName : string) : bool :=
  presence_atHome generalSettings
  && negb (presence_excluded generalSettings cameraName).

(** The event is a trigger for this camera. *)
Definition concerns (cameraName : string) (e : Event) : bool :=
  match e with
  | Trigger _ c _ _ _ _ => String.eqb c cameraName
  | Expire _ => false
  end.

(** From a world in which the camera has no entry, no run gives it one, and
    after any run every positive trigger for it that the presence policy
    lets through is forwarded to the event controller. *)
Definition never_armed_always_forwarded (cameras : list (option CameraConfig))
    (cameraName : string) : Prop :=
  forall es w,
    motionTimers w !! cameraName = None ->
    let w' := run cameras es w in
    motionTimers w' !! cameraName = None
    /\ forall triggerType event result generalSettings,
       suppressed generalSettings cameraName = false ->
       handleMotion cameras triggerType cameraName true event result
         generalSettings w'
       = ({| error := false; message := "Handled through intern controller" |},
          EventController_handle
            {| sink_trigger := triggerType; sink_camera := cameraName;
               sink_state := true |}
            (controller_emit
               {| emit_camera := cameraName; emit_trigger := triggerType;
                  emit_state := true; emit_event := event |} w')).

(** ** Bookkeeping of timeouts *)

(** The timeout used for a camera (line 84). *)
Definition timeoutConfig (c : CameraConfig) : Z :=
  if 0 <=? motionTimeout c then motionTimeout c else 1.

(** The timer map and the event loop agree: the handle stored for a camera
    is a pending timeout whose callback closes over that camera, every
    pending timeout is the handle stored for its camera, and identities at
    or above the next one to hand out are not in use. *)
Definition timers_consistent (w : World) : Prop :=
  (forall cam t,
     motionTimers w !! cam = Some t -> pending w !! timer_id t = Some cam)
  /\ (forall id cam,
       pending w !! id = Some cam ->
       exists t, motionTimers w !! cam = Some t /\ timer_id t = id)
  /\ (forall id, is_Some (pending w !! id) -> (id < next_timer w)%nat).

(** The event controller call that corresponds to a controller emit. *)
Definition emit_as_call (e : MotionEmit) : SinkCall :=
  {| sink_trigger := emit_trigger e; sink_camera := emit_camera e;
     sink_state := emit_state e |}.

(** ** The SMTP listener *)

(** [s.replace(new RegExp(EscapeRegExp(pat), 'g'), by)] for a non-empty
    [pat]: scanning from the left, every occurrence of [pat] that does not
    overlap an earlier one is replaced. [skip] counts the characters of the
    current occurrence that are still to be dropped. *)
Fixpoint replace_from (pat by_ : string) (skip : nat) (s : string) : string :=
  match s with
  | EmptyString => EmptyString
  | String c s' =>
      match skip with
      | S k => replace_from pat by_ k s'
      | O =>
          if String.prefix pat s
          then by_ +:+ replace_from pat by_ (String.length pat - 1) s'
          else String c (replace_from pat by_ 0 s')
      end
  end.

(** The same for the empty pattern, which matches before every character
    and at the end. *)
Fixpoint replace_empty (by_ : string) (s : string) : string :=
  match s with
  | EmptyString => by_
  | String c s' => by_ +:+ String c (replace_empty by_ s')
  end.

Definition replace_all (pat by_ s : string) : string :=
  if String.eqb pat "" then replace_empty by_ s else replace_from pat by_ 0 s.

(** Line 305: [rcptTo.address.split('@')[0].replace(regex, ' ')] where
    [regex] matches the configured [space_replace] literally. *)
Definition smtp_name (space_replace address : string) : string :=
  replace_all space_replace " " (default "" (split "@" address !! 0%nat)).

(** Line 309: the URL of the loopback request; [httpPort] is the text of
    the configured port. *)
Definition smtp_url (httpPort cameraName : string) : string :=
  "http://127.0.0.1:" +:+ httpPort +:+ "/motion?" +:+ cameraName.

(** [onData]: the loopback requests issued for the recipients of a mail,
    in order. *)
Definition smtp_onData (space_replace httpPort : string)
    (rcptTo : list string) : list string :=
  map (fun address => smtp_url httpPort (smtp_name space_replace address))
    rcptTo.

(** Apply a function to every character. *)
Fixpoint map_chars (f : ascii -> ascii) (s : string) : string :=
  match s with
  | EmptyString => EmptyString
  | String c s' => String (f c) (map_chars f s')
  end.

(** [pieces.join(sep)]. *)
Fixpoint join (sep : ascii) (pieces : list string) : string :=
  match pieces with
  | [] => EmptyString
  | [piece] => piece
  | piece :: rest => piece +:+ String sep (join sep rest)
  end.

(** ** Sample configuration *)

Definition garage : CameraConfig :=
  {| name := "Garage"; recordOnMovement := true; motionTimeout := 10 |}.

Definition sample_cameras : list (option CameraConfig) :=
  [None; Some garage;
   Some {| name := "Porch"; recordOnMovement := false; motionTimeout := 10 |};
   Some {| name := "Yard"; recordOnMovement := true; motionTimeout := 0 |};
   Some {| name := "Shed"; recordOnMovement := true; motionTimeout := -1 |}].

(** A stand-in for [url.parse] on request targets of the form
    [path?query], and for [decodeURIComponent] on names without escapes;
    they are used to run the HTTP handler on the scenarios. *)
Fixpoint before_question (s : string) : string :=
  match s with
  | EmptyString => EmptyString
  | String c s' =>
      if Ascii.eqb c "?" then EmptyString else String c (before_question s')
  end.

Fixpoint after_question (s : string) : option string :=
  match s with
  | EmptyString => None
  | String c s' => if Ascii.eqb c "?" then Some s' else after_question s'
  end.

Definition sample_parse (url : string) : ParsedUrl :=
  {| pathname := Some (before_question url); query := after_question url |}.

Definition sample_decode (s : string) : option string := Some s.

(** A stand-in for [decodeURIComponent] on text with escapes: an escape
    that is cut short or not hexadecimal makes it throw ([None]), as the
    original does; a complete escape yields the byte it names; text without
    escapes is unchanged. *)
Definition hex_value (c : ascii) : option N :=
  let n := N_of_ascii c in
  if ((48 <=? n) && (n <=? 57))%N then Some (n - 48)%N
  else if ((65 <=? n) && (n <=? 70))%N then Some (n - 55)%N
  else if ((97 <=? n) && (n <=? 102))%N then Some (n - 87)%N
  else None.

Fixpoint percent_decode (s : string) : option string :=
  match s with
  | EmptyString => Some EmptyString
  | String c rest =>
      if Ascii.eqb c "%" then
        match rest with
        | String h (String l rest') =>
            match hex_value h, hex_value l with
            | Some a, Some b =>
                String (ascii_of_N (16 * a + b)) <$> percent_decode rest'
            | _, _ => None
            end
        | _ => None
        end
      else String c <$> percent_decode rest
  end.

Definition sample_topics : gmap string TopicMapping :=
  {[ "cam/Garage" :=
       {| camera := "Garage"; motion := true; reset := false;
          motionMessage := "ON"; motionResetMessage := "OFF" |} ]}.

Definition sample_result : Result :=
  {| error := true; message := "Custom event could not be handled" |}.

(** The world after scenario 1: the garage camera is armed with timeout 0 of
    ten seconds. *)
Definition armed_garage : World :=
  snd (handleMotion sample_cameras (Some "motion") "Garage" true "http"
         sample_result None initial).

(** ** Scenarios *)

Example scenario_1 :
  handleMotion sample_cameras (Some "motion") "Garage" true "http"
    sample_result None initial
  = ({| error := false; message := "Handled through intern controller" |},
     {| motionTimers := {[ "Garage" := {| timer_id := 0; timer_delay := 10000 |} ]};
        pending := {[ 0%nat := "Garage" ]}; next_timer := 1;
        emitted := [ {| emit_camera := "Garage"; emit_trigger := Some "motion";
                        emit_state := true; emit_event := "http" |} ];
        handled := [ {| sink_trigger := Some "motion"; sink_camera := "Garage";
                        sink_state := true |} ];
        logged := [] |}).
Proof. vm_compute. reflexivity. Qed.

Example http_trigger_motion : http_trigger "/motion" = (Some "motion", true).
Proof. reflexivity. Qed.

Example http_trigger_reset : http_trigger "/motion/reset" = (Some "motion", false).
Proof. reflexivity. Qed.

Example http_trigger_doorbell : http_trigger "/doorbell" = (Some "doorbell", true).
Proof. reflexivity. Qed.

Example http_trigger_no_slash : http_trigger "motion" = (None, true).
Proof. reflexivity. Qed.

(** ** Facts about the camera lookup and the presence policy *)

Lemma getCamera_Some cameras cameraName c :
  getCamera cameras cameraName = Some c ->
  Some c ∈ cameras /\ name c = cameraName.
Proof.
  unfold getCamera. intros H.
  destruct (find _ cameras) as [[c'|]|] eqn:E; simpl in H; try discriminate.
  injection H as ->. apply find_some in E as [Hin Hname].
  split; [by apply list_elem_of_In | by apply String.eqb_eq].
Qed.

Lemma getCamera_None cameras cameraName :
  getCamera cameras cameraName = None <->
  (forall c, Some c ∈ cameras -> name c <> cameraName).
Proof.
  unfold getCamera. split.
  - intros H c Hin Hname.
    destruct (find _ cameras) as [[c'|]|] eqn:E; simpl in H; try discriminate.
    + apply find_some in E as [_ E]. discriminate.
    + apply list_elem_of_In in Hin. apply (find_none _ _ E) in Hin.
      simpl in Hin. apply String.eqb_neq in Hin. contradiction.
  - intros H.
    destruct (find _ cameras) as [[c'|]|] eqn:E; simpl; try reflexivity.
    apply find_some in E as [Hin Hname].
    apply String.eqb_eq in Hname. apply list_elem_of_In in Hin.
    by destruct (H c' Hin).
Qed.

Lemma presence_excluded_spec g cameraName :
  presence_excluded (Some g) cameraName = true <->
  cameraName ∈ default [] (exclude g).
Proof.
  unfold presence_excluded. destruct (exclude g) as [l|]; simpl.
  - rewrite existsb_exists. split.
    + intros (x & Hin & Heq). apply String.eqb_eq in Heq. subst x.
      by apply list_elem_of_In.
    + intros Hin. exists cameraName. split; [by apply list_elem_of_In |].
      apply String.eqb_refl.
  - split; [discriminate | intros H; inversion H].
Qed.

Lemma suppressed_true generalSettings cameraName :
  suppressed generalSettings cameraName = true <->
  exists g, generalSettings = Some g /\ atHome g = true
            /\ cameraName ∉ default [] (exclude g).
Proof.
  unfold suppressed. rewrite andb_true_iff, negb_true_iff. split.
  - intros [Hh Hx]. destruct generalSettings as [g|]; [| discriminate].
    exists g. repeat split; [exact Hh |].
    intros Hin. apply presence_excluded_spec in Hin. congruence.
  - intros (g & -> & Hh & Hx). split; [exact Hh |].
    destruct (presence_excluded (Some g) cameraName) eqn:E; [| reflexivity].
    apply presence_excluded_spec in E. contradiction.
Qed.

(** ** The branches of the resolver *)

Section Branches.

Variable cameras : list (option CameraConfig).
Variables (triggerType : option string) (cameraName : string).
Variables (event : string) (result : Result).
Variable generalSettings : option GeneralSettings.
Variable camera : CameraConfig.

Hypothesis known : getCamera cameras cameraName = Some camera.

Lemma known_name : name camera = cameraName.
Proof. by destruct (getCamera_Some _ _ _ known). Qed.

Lemma handleMotion_suppressed state w :
  suppressed generalSettings cameraName = true ->
  handleMotion cameras triggerType cameraName state event result
    generalSettings w
  = ({| error := false;
        message := "Skip motion trigger. At Home is active and "
                     +:+ cameraName +:+ " is not excluded!" |}, w).
Proof.
  unfold suppressed, handleMotion. intros H. by rewrite known, H.
Qed.

Hypothesis allowed : suppressed generalSettings cameraName = false.

Lemma handleMotion_no_record state w :
  recordOnMovement camera = false ->
  handleMotion cameras triggerType cameraName state event result
    generalSettings w
  = ({| error := false; message := "Handled through extern controller" |},
     controller_emit
            {| emit_camera := cameraName; emit_trigger := triggerType;
               emit_state := state; emit_event := event |} w).
Proof.
  unfold suppressed in allowed. unfold handleMotion. intros H.
  by rewrite known, allowed, H.
Qed.

Hypothesis recording : recordOnMovement camera = true.

Lemma handleMotion_armed_true timeout w :
  motionTimers w !! cameraName = Some timeout ->
  handleMotion cameras triggerType cameraName true event result
    generalSettings w
  = ({| error := false; message := "Skip motion event, timeout active!" |},
     timers_delete cameraName
       (clearTimeout timeout (controller_emit
            {| emit_camera := cameraName; emit_trigger := triggerType;
               emit_state := true; emit_event := event |} w))).
Proof.
  unfold suppressed in allowed. unfold handleMotion. intros H.
  rewrite known, allowed, recording, known_name. simpl. by rewrite H.
Qed.

Lemma handleMotion_armed_false timeout w :
  motionTimers w !! cameraName = Some timeout ->
  handleMotion cameras triggerType cameraName false event result
    generalSettings w
  = ({| error := false; message := "Handled through extern controller" |},
     EventController_handle
       {| sink_trigger := triggerType; sink_camera := cameraName;
          sink_state := false |}
       (timers_delete cameraName
          (clearTimeout timeout (controller_emit
            {| emit_camera := cameraName; emit_trigger := triggerType;
               emit_state := false; emit_event := event |} w)))).
Proof.
  unfold suppressed in allowed. unfold handleMotion. intros H.
  rewrite known, allowed, recording, known_name. simpl. by rewrite H.
Qed.

Lemma handleMotion_idle_arm w :
  motionTimers w !! cameraName = None ->
  0 < (if 0 <=? motionTimeout camera then motionTimeout camera else 1) ->
  handleMotion cameras triggerType cameraName true event result
    generalSettings w
  = ({| error := false; message := "Handled through intern controller" |},
     EventController_handle
       {| sink_trigger := triggerType; sink_camera := cameraName;
          sink_state := true |}
       (let '(timer, w) :=
          setTimeout cameraName
            ((if 0 <=? motionTimeout camera then motionTimeout camera else 1)
             * 1000) (controller_emit
            {| emit_camera := cameraName; emit_trigger := triggerType;
               emit_state := true; emit_event := event |} w) in
        timers_set cameraName timer w)).
Proof.
  unfold suppressed in allowed. unfold handleMotion. intros H Hpos.
  rewrite known, allowed, recording, known_name. simpl. rewrite H.
  apply Z.ltb_lt in Hpos. by rewrite Hpos.
Qed.

Lemma handleMotion_idle_pass state w :
  motionTimers w !! cameraName = None ->
  state = false \/ motionTimeout camera = 0 ->
  handleMotion cameras triggerType cameraName state event result
    generalSettings w
  = ({| error := false; message := "Handled through intern controller" |},
     EventController_handle
       {| sink_trigger := triggerType; sink_camera := cameraName;
          sink_state := state |}
       (controller_emit
            {| emit_camera := cameraName; emit_trigger := triggerType;
               emit_state := state; emit_event := event |} w)).
Proof.
  unfold suppressed in allowed. unfold handleMotion. intros H Hcase.
  rewrite known, allowed, recording, known_name. simpl. rewrite H.
  destruct Hcase as [-> | ->]; [done |]. simpl. by rewrite andb_false_r.
Qed.

End Branches.

(** ** How the resolver and the timeouts change the timer map *)

Lemma handleMotion_other cameras triggerType cameraName state event result
    generalSettings w (other : string) :
  cameraName <> other ->
  motionTimers
    (snd (handleMotion cameras triggerType cameraName state event result
            generalSettings w)) !! other
  = motionTimers w !! other.
Proof.
  intros Hne. unfold handleMotion.
  destruct (getCamera cameras cameraName) as [c|] eqn:Hc; [| reflexivity].
  destruct (getCamera_Some _ _ _ Hc) as [_ ->].
  destruct (_ && _); [reflexivity |].
  destruct (recordOnMovement c); [| reflexivity].
  simpl. destruct (motionTimers w !! cameraName) as [t|].
  - destruct state; simpl; by rewrite lookup_delete_ne.
  - destruct (state && _); simpl; [by rewrite lookup_insert_ne | reflexivity].
Qed.

Lemma expire_keeps_idle id w (cam : string) :
  motionTimers w !! cam = None ->
  motionTimers (expire id w) !! cam = None.
Proof.
  intros H. unfold expire. destruct (pending w !! id) as [c|]; [| exact H].
  simpl. apply lookup_delete_None. by right.
Qed.

Lemma handleMotion_idle_forwarded cameras camera triggerType cameraName state
    event result generalSettings w :
  getCamera cameras cameraName = Some camera ->
  recordOnMovement camera = true ->
  suppressed generalSettings cameraName = false ->
  motionTimers w !! cameraName = None ->
  fst (handleMotion cameras triggerType cameraName state event result
         generalSettings w)
  = {| error := false; message := "Handled through intern controller" |}
  /\ handled
       (snd (handleMotion cameras triggerType cameraName state event result
               generalSettings w))
     = handled w ++ [{| sink_trigger := triggerType; sink_camera := cameraName;
                        sink_state := state |}].
Proof.
  intros Hc Hrec Hs Hidle. unfold suppressed in Hs. unfold handleMotion.
  rewrite Hc, Hs, Hrec. destruct (getCamera_Some _ _ _ Hc) as [_ Hn].
  rewrite Hn. simpl. rewrite Hidle.
  destruct (state && _); simpl; by split.
Qed.

Lemma run_others_keep_idle cameras es w (cam : string) :
  Forall (fun e => concerns cam e = false) es ->
  motionTimers w !! cam = None ->
  motionTimers (run cameras es w) !! cam = None.
Proof.
  intros Hes. revert w. induction Hes as [| e es He _ IH]; intros w Hidle.
  - exact Hidle.
  - apply IH. destruct e as [tt c st ev r gs | id]; simpl.
    + rewrite handleMotion_other; [exact Hidle |].
      simpl in He. by apply String.eqb_neq in He.
    + by apply expire_keeps_idle.
Qed.

(** With a timeout of zero seconds a step never creates the entry. *)
Lemma step_zero_timeout_idle cameras camera cameraName e w :
  getCamera cameras cameraName = Some camera ->
  motionTimeout camera = 0 ->
  motionTimers w !! cameraName = None ->
  motionTimers (step cameras e w) !! cameraName = None.
Proof.
  intros Hc Hz Hidle. destruct e as [tt c st ev r gs | id]; simpl.
  - destruct (String.eqb_spec c cameraName) as [-> | Hne].
    + unfold handleMotion. rewrite Hc.
      destruct (getCamera_Some _ _ _ Hc) as [_ Hn].
      destruct (_ && _); [exact Hidle |].
      destruct (recordOnMovement camera); [| exact Hidle].
      rewrite Hn, Hz. simpl. rewrite Hidle.
      by rewrite andb_false_r.
    + by rewrite handleMotion_other.
  - by apply expire_keeps_idle.
Qed.

(** ** Properties of the resolver *)

(** C4. For a known camera, when the settings report [atHome] and the camera
    name is not in the exclusion list, the resolver returns the non-error
    result "Skip motion trigger. At Home is active and <camera> is not
    excluded!" and leaves the whole world as it was: nothing is emitted on
    the controller, nothing reaches the event controller, and the timer map
    is unchanged. *)
Theorem at_home_trigger_is_skipped cameras camera triggerType cameraName state
    event result g w :
  getCamera cameras cameraName = Some camera ->
  atHome g = true ->
  cameraName ∉ default [] (exclude g) ->
  handleMotion cameras triggerType cameraName state event result (Some g) w
  = ({| error := false;
        message := "Skip motion trigger. At Home is active and "
                     +:+ cameraName +:+ " is not excluded!" |}, w).
Proof.
  intros Hc Hhome Hex. apply (handleMotion_suppressed _ _ _ _ _ _ _ Hc).
  apply suppressed_true. by exists g.
Qed.

Lemma at_home_trigger_is_skipped_witness :
  handleMotion sample_cameras (Some "motion") "Garage" true "http"
    sample_result (Some {| atHome := true; exclude := Some ["Porch"] |})
    initial
  = ({| error := false;
        message := "Skip motion trigger. At Home is active and Garage is not excluded!" |},
     initial).
Proof.
  apply (at_home_trigger_is_skipped sample_cameras garage).
  - reflexivity.
  - reflexivity.
  - apply (bool_decide_unpack _). vm_compute. exact I.
Defined.

(** C5. When no camera of the registry has the requested name, the resolver
    returns the error result "Camera '<name>' not found" and leaves the whole
    world as it was: no timer entry is created, cleared or removed and
    nothing is emitted or forwarded. *)
Theorem unknown_camera_is_rejected cameras triggerType cameraName state event
    result generalSettings w :
  (forall c, Some c ∈ cameras -> name c <> cameraName) ->
  handleMotion cameras triggerType cameraName state event result
    generalSettings w
  = ({| error := true;
        message := "Camera '" +:+ cameraName +:+ "' not found" |}, w).
Proof.
  intros H. apply getCamera_None in H. unfold handleMotion. by rewrite H.
Qed.

Lemma unknown_camera_is_rejected_witness :
  handleMotion [None; Some garage] (Some "motion") "Unknown" true "http"
    sample_result None initial
  = ({| error := true; message := "Camera 'Unknown' not found" |}, initial).
Proof.
  apply (unknown_camera_is_rejected [None; Some garage]).
  intros c Hin. apply list_elem_of_In in Hin.
  destruct Hin as [H | [H | []]]; [discriminate |].
  injection H as <-. discriminate.
Defined.

(** C8. For a known camera that does not record on movement and is not
    suppressed by the presence policy, the resolver only emits the motion
    notification on the controller: the timer map and the pending timeouts
    are unchanged, nothing reaches the event controller, and the result is
    the non-error "Handled through extern controller". *)
Theorem no_recording_only_notifies cameras camera triggerType cameraName state
    event result generalSettings w :
  getCamera cameras cameraName = Some camera ->
  recordOnMovement camera = false ->
  suppressed generalSettings cameraName = false ->
  handleMotion cameras triggerType cameraName state event result
    generalSettings w
  = ({| error := false; message := "Handled through extern controller" |},
     {| motionTimers := motionTimers w; pending := pending w;
        next_timer := next_timer w;
        emitted := emitted w ++ [{| emit_camera := cameraName;
                                    emit_trigger := triggerType;
                                    emit_state := state;
                                    emit_event := event |}];
        handled := handled w; logged := logged w |}).
Proof.
  intros Hc Hrec Hs.
  by rewrite (handleMotion_no_record _ _ _ _ _ _ _ Hc Hs _ _ Hrec).
Qed.

Lemma no_recording_only_notifies_witness :
  handleMotion sample_cameras (Some "motion") "Porch" true "mqtt"
    sample_result None initial
  = ({| error := false; message := "Handled through extern controller" |},
     {| motionTimers := ∅; pending := ∅; next_timer := 0;
        emitted := [{| emit_camera := "Porch"; emit_trigger := Some "motion";
                       emit_state := true; emit_event := "mqtt" |}];
        handled := []; logged := [] |}).
Proof.
  apply (no_recording_only_notifies sample_cameras
           {| name := "Porch"; recordOnMovement := false; motionTimeout := 10 |});
    reflexivity.
Defined.

(** C9. For a known recording camera that is idle (no timer entry) and not
    suppressed by the presence policy, processing the same reset trigger
    ([state = false]) twice in a row leaves the timer map and the pending
    timeouts unchanged each time, both calls return a non-error result, the
    two results are equal, and each call forwards the reset to the event
    controller. *)
Theorem idle_reset_twice cameras camera triggerType cameraName event1 event2
    result1 result2 settings1 settings2 w :
  getCamera cameras cameraName = Some camera ->
  recordOnMovement camera = true ->
  suppressed settings1 cameraName = false ->
  suppressed settings2 cameraName = false ->
  motionTimers w !! cameraName = None ->
  let first :=
    handleMotion cameras triggerType cameraName false event1 result1
      settings1 w in
  let second :=
    handleMotion cameras triggerType cameraName false event2 result2
      settings2 (snd first) in
  let forwarded :=
    {| sink_trigger := triggerType; sink_camera := cameraName;
       sink_state := false |} in
  motionTimers (snd first) = motionTimers w
  /\ motionTimers (snd second) = motionTimers (snd first)
  /\ pending (snd first) = pending w
  /\ pending (snd second) = pending (snd first)
  /\ error (fst first) = false
  /\ error (fst second) = false
  /\ fst first = fst second
  /\ handled (snd second) = handled w ++ [forwarded; forwarded].
Proof.
  intros Hc Hrec Hs1 Hs2 Hidle first second forwarded.
  subst first second.
  rewrite (handleMotion_idle_pass _ _ _ event1 result1 _ _ Hc Hs1 Hrec false w
             Hidle (or_introl eq_refl)).
  cbn [fst snd].
  rewrite (handleMotion_idle_pass _ _ _ event2 result2 _ _ Hc Hs2 Hrec false
             (EventController_handle _ (controller_emit _ w))
             Hidle (or_introl eq_refl)).
  simpl. repeat split. by rewrite <- app_assoc.
Qed.

Lemma idle_reset_twice_witness :
  let first :=
    handleMotion sample_cameras (Some "motion") "Garage" false "http"
      sample_result None initial in
  let second :=
    handleMotion sample_cameras (Some "motion") "Garage" false "http"
      sample_result None (snd first) in
  fst first = fst second /\ motionTimers (snd second) = ∅.
Proof.
  pose proof (idle_reset_twice sample_cameras garage (Some "motion") "Garage"
                "http" "http" sample_result sample_result None None initial
                eq_refl eq_refl eq_refl eq_refl eq_refl) as H.
  simpl in H. destruct H as (H1 & H2 & _ & _ & _ & _ & H7 & _).
  split; [exact H7 |]. by rewrite H2, H1.
Defined.

(** C1. Evaluation of the resolver on a positive trigger for the armed garage
    camera: the trigger is answered with "Skip motion event, timeout
    active!" and nothing reaches the event controller, but the timeout is
    cleared and the camera's entry is deleted, so the timer map after the
    call differs from the map before it. *)
Theorem armed_positive_trigger_deletes_entry :
  let after :=
    handleMotion sample_cameras (Some "motion") "Garage" true "http"
      sample_result None armed_garage in
  motionTimers armed_garage !! "Garage"
    = Some {| timer_id := 0; timer_delay := 10000 |}
  /\ pending armed_garage !! 0%nat = Some "Garage"
  /\ fst after
     = {| error := false; message := "Skip motion event, timeout active!" |}
  /\ handled (snd after) = handled armed_garage
  /\ motionTimers (snd after) !! "Garage" = None
  /\ pending (snd after) !! 0%nat = None
  /\ motionTimers (snd after) <> motionTimers armed_garage.
Proof.
  repeat split; try (vm_compute; reflexivity).
  intros H. apply (f_equal (fun m => m !! "Garage")) in H.
  vm_compute in H. discriminate.
Qed.

(** C3. Evaluation of the resolver on a reset trigger for the armed garage
    camera: the timeout is cleared, the entry is removed and the reset is
    forwarded to the event controller, but the returned message is "Handled
    through extern controller", not "Handled through intern controller". *)
Theorem armed_reset_keeps_extern_message :
  let after :=
    handleMotion sample_cameras (Some "motion") "Garage" false "http"
      sample_result None armed_garage in
  motionTimers armed_garage !! "Garage"
    = Some {| timer_id := 0; timer_delay := 10000 |}
  /\ motionTimers (snd after) !! "Garage" = None
  /\ pending (snd after) !! 0%nat = None
  /\ handled (snd after)
     = handled armed_garage
         ++ [{| sink_trigger := Some "motion"; sink_camera := "Garage";
                sink_state := false |}]
  /\ fst after
     = {| error := false; message := "Handled through extern controller" |}
  /\ fst after
     <> {| error := false; message := "Handled through intern controller" |}.
Proof.
  repeat split; try (vm_compute; reflexivity).
  vm_compute. discriminate.
Qed.

(** C10. For a known recording camera that is armed and not suppressed by
    the presence policy, any trigger (positive or reset) leaves the camera
    without a timer entry. The entry stays absent through any further events
    that are not triggers for this camera, so the next positive trigger for
    it that the presence policy lets through finds it idle and is forwarded
    to the event controller with "Handled through intern controller": one
    arming suppresses at most one positive trigger. *)
Theorem armed_trigger_always_disarms cameras camera triggerType cameraName
    state event result generalSettings timeout w :
  getCamera cameras cameraName = Some camera ->
  recordOnMovement camera = true ->
  suppressed generalSettings cameraName = false ->
  motionTimers w !! cameraName = Some timeout ->
  let w1 :=
    snd (handleMotion cameras triggerType cameraName state event result
           generalSettings w) in
  motionTimers w1 !! cameraName = None
  /\ forall es, Forall (fun e => concerns cameraName e = false) es ->
     let w2 := run cameras es w1 in
     motionTimers w2 !! cameraName = None
     /\ forall triggerType' event' result' settings',
        suppressed settings' cameraName = false ->
        let next :=
          handleMotion cameras triggerType' cameraName true event' result'
            settings' w2 in
        fst next
        = {| error := false; message := "Handled through intern controller" |}
        /\ handled (snd next)
           = handled w2 ++ [{| sink_trigger := triggerType';
                               sink_camera := cameraName;
                               sink_state := true |}].
Proof.
  intros Hc Hrec Hs Harmed w1.
  assert (Hidle : motionTimers w1 !! cameraName = None).
  { subst w1. destruct state.
    - rewrite (handleMotion_armed_true _ _ _ event result _ _ Hc Hs Hrec _ _
                 Harmed).
      simpl. apply lookup_delete_eq.
    - rewrite (handleMotion_armed_false _ _ _ event result _ _ Hc Hs Hrec _ _
                 Harmed).
      simpl. apply lookup_delete_eq. }
  split; [exact Hidle |].
  intros es Hes w2.
  assert (Hidle2 : motionTimers w2 !! cameraName = None)
    by (by apply run_others_keep_idle).
  split; [exact Hidle2 |].
  intros tt' ev' r' gs' Hs' next.
  by apply (handleMotion_idle_forwarded _ camera).
Qed.

Lemma armed_trigger_always_disarms_witness :
  let w1 :=
    snd (handleMotion sample_cameras (Some "motion") "Garage" true "http"
           sample_result None armed_garage) in
  let w2 :=
    run sample_cameras
      [Expire 0; Trigger (Some "motion") "Porch" true "http" sample_result None]
      w1 in
  motionTimers w1 !! "Garage" = None
  /\ fst (handleMotion sample_cameras (Some "motion") "Garage" true "http"
            sample_result None w2)
     = {| error := false; message := "Handled through intern controller" |}.
Proof.
  pose proof (armed_trigger_always_disarms sample_cameras garage
                (Some "motion") "Garage" true "http" sample_result None
                {| timer_id := 0; timer_delay := 10000 |} armed_garage
                eq_refl eq_refl eq_refl eq_refl) as [H1 H2].
  split; [exact H1 |].
  specialize (H2 [Expire 0;
                  Trigger (Some "motion") "Porch" true "http" sample_result None]).
  destruct H2 as [_ H2].
  - repeat constructor.
  - exact (proj1 (H2 (Some "motion") "http" sample_result None eq_refl)).
Defined.

Lemma run_zero_timeout_idle cameras camera cameraName es w :
  getCamera cameras cameraName = Some camera ->
  motionTimeout camera = 0 ->
  motionTimers w !! cameraName = None ->
  motionTimers (run cameras es w) !! cameraName = None.
Proof.
  intros Hc Hz. revert w. induction es as [| e es IH]; intros w Hidle.
  - exact Hidle.
  - apply IH. by apply (step_zero_timeout_idle _ camera).
Qed.

(** C2, as amended. For a known recording camera whose [motionTimeout] is
    exactly zero and that starts without a timer entry, no sequence of
    triggers and timeout expiries ever creates an entry for it, and every
    positive trigger for it that the presence policy lets through is
    forwarded to the event controller with "Handled through intern
    controller", leaving the timer map untouched. *)
Theorem zero_timeout_never_arms cameras camera cameraName :
  getCamera cameras cameraName = Some camera ->
  motionTimeout camera = 0 ->
  recordOnMovement camera = true ->
  never_armed_always_forwarded cameras cameraName.
Proof.
  intros Hc Hz Hrec es w Hidle w'.
  assert (Hidle' : motionTimers w' !! cameraName = None)
    by (by apply (run_zero_timeout_idle _ camera)).
  split; [exact Hidle' |].
  intros tt ev r gs Hs.
  apply (handleMotion_idle_pass _ _ _ ev r _ _ Hc Hs Hrec true w' Hidle').
  by right.
Qed.

Lemma zero_timeout_never_arms_witness :
  let w' :=
    run sample_cameras
      [Trigger (Some "motion") "Yard" true "http" sample_result None;
       Trigger (Some "motion") "Yard" true "http" sample_result None]
      initial in
  motionTimers w' !! "Yard" = None
  /\ fst (handleMotion sample_cameras (Some "motion") "Yard" true "http"
            sample_result None w')
     = {| error := false; message := "Handled through intern controller" |}.
Proof.
  pose proof (zero_timeout_never_arms sample_cameras
                {| name := "Yard"; recordOnMovement := true;
                   motionTimeout := 0 |} "Yard" eq_refl eq_refl eq_refl
                [Trigger (Some "motion") "Yard" true "http" sample_result None;
                 Trigger (Some "motion") "Yard" true "http" sample_result None]
                initial eq_refl) as [H1 H2].
  split; [exact H1 |].
  by rewrite (H2 (Some "motion") "http" sample_result None eq_refl).
Defined.

(** C2, as stated, fails: the same property does not hold for every camera
    with [motionTimeout <= 0]. The camera "Shed" has a timeout of -1, for
    which the resolver uses one second: its first positive trigger creates
    an entry. *)
Lemma nonpositive_timeout_may_arm :
  ~ (forall cameras camera cameraName,
       getCamera cameras cameraName = Some camera ->
       motionTimeout camera <= 0 ->
       recordOnMovement camera = true ->
       never_armed_always_forwarded cameras cameraName).
Proof.
  intros H.
  specialize (H sample_cameras
                {| name := "Shed"; recordOnMovement := true;
                   motionTimeout := -1 |} "Shed" eq_refl).
  destruct (H ltac:(simpl; lia) eq_refl
              [Trigger (Some "motion") "Shed" true "http" sample_result None]
              initial eq_refl) as [Habs _].
  vm_compute in Habs. discriminate.
Qed.

(** The second positive trigger for "Shed" is then suppressed. *)
Example shed_is_debounced :
  let w1 :=
    snd (handleMotion sample_cameras (Some "motion") "Shed" true "http"
           sample_result None initial) in
  let second :=
    handleMotion sample_cameras (Some "motion") "Shed" true "http"
      sample_result None w1 in
  motionTimers w1 !! "Shed" = Some {| timer_id := 0; timer_delay := 1000 |}
  /\ fst second
     = {| error := false; message := "Skip motion event, timeout active!" |}
  /\ handled (snd second) = handled w1.
Proof. repeat split; vm_compute; reflexivity. Qed.

(** ** Strings: pieces of a split and substrings *)

Lemma prefix_cons c s1 s2 :
  String.prefix (String c s1) (String c s2) = String.prefix s1 s2.
Proof. simpl. destruct (ascii_dec c c); [reflexivity | contradiction]. Qed.

Lemma split_cons sep s : exists piece rest, split sep s = piece :: rest.
Proof.
  destruct s as [| c s]; simpl; [by eauto |].
  destruct (Ascii.eqb c sep); [by eauto |].
  destruct (split sep s); by eauto.
Qed.

(** The first piece of a split is a prefix of the string. *)
Lemma split_head_prefix sep s piece :
  split sep s !! 0%nat = Some piece -> String.prefix piece s = true.
Proof.
  revert piece. induction s as [| c s IH]; intros piece; simpl.
  - by intros [= <-].
  - destruct (Ascii.eqb c sep); [by intros [= <-] |].
    destruct (split sep s) as [| h t]; simpl.
    + intros [= <-]. simpl. destruct (ascii_dec c c); [by destruct s | congruence].
    + intros [= <-]. simpl. destruct (ascii_dec c c); [by apply IH | congruence].
Qed.

(** The second piece of a split occurs in the string right after a
    separator. *)
Lemma split_second_includes sep s piece :
  split sep s !! 1%nat = Some piece -> includes (String sep piece) s = true.
Proof.
  induction s as [| c s IH]; [discriminate |].
  cbn [split]. destruct (Ascii.eqb_spec c sep) as [-> | Hne].
  - intros H. cbn [includes]. rewrite prefix_cons.
    change ((EmptyString :: split sep s) !! 1%nat) with (split sep s !! 0%nat)
      in H.
    by rewrite (split_head_prefix _ _ _ H).
  - destruct (split_cons sep s) as (h & t & E). rewrite E in *.
    intros H. cbn [includes]. rewrite (IH H). apply orb_true_r.
Qed.

(** ** Properties of the normalisers *)

Lemma http_trigger_on_reset path :
  includes "/reset" path = true -> http_trigger path = (Some "motion", false).
Proof. unfold http_trigger. by intros ->. Qed.

Lemma http_trigger_on_other path :
  includes "/reset" path = false ->
  http_trigger path = (split "/" path !! 1%nat, true).
Proof.
  unfold http_trigger. intros E. rewrite E.
  destruct (split "/" path !! 1%nat) as [t|] eqn:Ht; [| reflexivity].
  destruct (String.eqb_spec t "reset") as [-> | Hne].
  - apply split_second_includes in Ht. congruence.
  - unfold strict_eq. apply String.eqb_neq in Hne. rewrite Hne.
    by destruct (String.eqb t "dorbell").
Qed.

Lemma truthy_Some s : s <> "" -> truthy (Some s) = true.
Proof. intros H. unfold truthy. apply String.eqb_neq in H. by rewrite H. Qed.




(** The stand-in decodes a complete escape, as in "/motion?Front%20Door". *)
Example percent_decode_blank :
  http_normalize sample_parse percent_decode "/motion?Front%20Door"
  = HttpCall (Some "motion") "Front Door" true.
Proof. reflexivity. Qed.

(** C7. For a message on a topic that has a mapping: the trigger type is
    "motion" when [motion] is set and "doorbell" otherwise; a doorbell
    trigger has [state = true] whatever the payload; for a motion trigger
    with [reset] set the state is [false] when the payload is the reset
    message and undefined otherwise; with [reset] unset the state is [true]
    when the payload is the motion message, else [false] when it is the
    reset message, else undefined. A resolved trigger is passed to the
    resolver with the mapped camera; an undefined state and an unmapped
    topic are answered with an error result that is only logged, the rest
    of the world staying as it was. *)
Theorem mqtt_normalization cameras topics topic msg :
  (forall m,
     topics !! topic = Some m ->
     mqtt_triggerType m = (if motion m then "motion" else "doorbell")
     /\ (motion m = false ->
         mqtt_normalize topics topic msg = MqttCall "doorbell" (camera m) true)
     /\ (motion m = true -> reset m = true ->
         (msg = motionResetMessage m ->
          mqtt_normalize topics topic msg = MqttCall "motion" (camera m) false)
         /\ (msg <> motionResetMessage m ->
             mqtt_normalize topics topic msg = MqttUnresolved))
     /\ (motion m = true -> reset m = false ->
         (msg = motionMessage m ->
          mqtt_normalize topics topic msg = MqttCall "motion" (camera m) true)
         /\ (msg <> motionMessage m -> msg = motionResetMessage m ->
             mqtt_normalize topics topic msg
             = MqttCall "motion" (camera m) false)
         /\ (msg <> motionMessage m -> msg <> motionResetMessage m ->
             mqtt_normalize topics topic msg = MqttUnresolved)))
  /\ (forall triggerType cameraName state,
      mqtt_normalize topics topic msg = MqttCall triggerType cameraName state ->
      forall generalSettings w,
        mqtt_message cameras topics topic msg generalSettings w
        = (let '(result, w') :=
             handleMotion cameras (Some triggerType) cameraName state "mqtt"
               {| error := true;
                  message := "Malformed MQTT message " +:+ msg +:+ " ("
                               +:+ topic +:+ ")" |}
               generalSettings w in
           (result, log (LogMqtt result (camera <$> topics !! topic)) w')))
  /\ (mqtt_normalize topics topic msg = MqttUnresolved ->
      forall generalSettings w,
        let result :=
          {| error := true;
             message := "The incoming MQTT message (" +:+ msg
                          +:+ ") for the topic (" +:+ topic
                          +:+ ") was not the same as set in config.json. Skip..." |} in
        mqtt_message cameras topics topic msg generalSettings w
        = (result, log (LogMqtt result (camera <$> topics !! topic)) w))
  /\ (topics !! topic = None ->
      mqtt_normalize topics topic msg = MqttUnmapped
      /\ forall generalSettings w,
         let result :=
           {| error := true;
              message := "Can not assign the MQTT topic (" +:+ topic
                           +:+ ") to a camera!" |} in
         mqtt_message cameras topics topic msg generalSettings w
         = (result, log (LogMqtt result None) w)).
Proof.
  split; [| split; [| split]].
  - intros m Hm. unfold mqtt_normalize, mqtt_state, mqtt_triggerType.
    rewrite Hm. split; [reflexivity |]. split; [| split].
    + by intros ->.
    + intros -> ->. simpl. split.
      * intros ->. by rewrite String.eqb_refl.
      * intros Hne. apply String.eqb_neq in Hne. by rewrite Hne.
    + intros -> ->. simpl. split; [| split].
      * intros ->. by rewrite String.eqb_refl.
      * intros Hne ->. apply String.eqb_neq in Hne.
        by rewrite Hne, String.eqb_refl.
      * intros Hne1 Hne2. apply String.eqb_neq in Hne1, Hne2.
        by rewrite Hne1, Hne2.
  - intros tt c st Hn gs w. unfold mqtt_message. rewrite Hn.
    by destruct (handleMotion _ _ _ _ _ _ _ _).
  - intros Hn gs w result. unfold mqtt_message. by rewrite Hn.
  - intros Hm.
    assert (Hn : mqtt_normalize topics topic msg = MqttUnmapped)
      by (unfold mqtt_normalize; by rewrite Hm).
    split; [exact Hn |].
    intros gs w result. unfold mqtt_message. by rewrite Hn, Hm.
Qed.

Lemma mqtt_normalization_witness :
  mqtt_normalize sample_topics "cam/Garage" "ON" = MqttCall "motion" "Garage" true
  /\ mqtt_normalize sample_topics "cam/Garage" "OFF"
     = MqttCall "motion" "Garage" false
  /\ mqtt_normalize sample_topics "cam/Garage" "maybe" = MqttUnresolved
  /\ mqtt_normalize sample_topics "cam/Porch" "ON" = MqttUnmapped.
Proof.
  split; [| split; [| split]].
  - destruct (mqtt_normalization sample_cameras sample_topics "cam/Garage" "ON")
      as [H _].
    destruct (H _ eq_refl) as (_ & _ & _ & H3).
    exact (proj1 (H3 eq_refl eq_refl) eq_refl).
  - destruct (mqtt_normalization sample_cameras sample_topics "cam/Garage" "OFF")
      as [H _].
    destruct (H _ eq_refl) as (_ & _ & _ & H3).
    apply (proj1 (proj2 (H3 eq_refl eq_refl))); [discriminate | reflexivity].
  - destruct (mqtt_normalization sample_cameras sample_topics "cam/Garage"
                "maybe") as [H _].
    destruct (H _ eq_refl) as (_ & _ & _ & H3).
    apply (proj2 (proj2 (H3 eq_refl eq_refl))); discriminate.
  - destruct (mqtt_normalization sample_cameras sample_topics "cam/Porch" "ON")
      as (_ & _ & _ & H).
    exact (proj1 (H eq_refl)).
Defined.

(** ** The timer map and the pending timeouts stay in step *)

Lemma consistent_remove w w' cam t :
  timers_consistent w ->
  motionTimers w !! cam = Some t ->
  motionTimers w' = delete cam (motionTimers w) ->
  pending w' = delete (timer_id t) (pending w) ->
  next_timer w' = next_timer w ->
  timers_consistent w'.
Proof.
  intros (Hmp & Hpm & Hlt) Ht Em Ep En. unfold timers_consistent.
  rewrite Em, Ep, En. split; [| split].
  - intros cam' t' H. apply lookup_delete_Some in H as [Hne H].
    rewrite lookup_delete_ne; [by apply Hmp |].
    intros Heq. apply Hmp in Ht, H. rewrite Heq in Ht. congruence.
  - intros id cam' H. apply lookup_delete_Some in H as [Hne H].
    destruct (Hpm _ _ H) as (t' & Ht' & Hid). exists t'. split; [| exact Hid].
    rewrite lookup_delete_ne; [exact Ht' |].
    intros <-. rewrite Ht in Ht'. injection Ht' as <-. congruence.
  - intros id [c H]. apply lookup_delete_Some in H as [_ H]. apply Hlt. by exists c.
Qed.

Lemma consistent_arm w w' cam delay :
  timers_consistent w ->
  motionTimers w !! cam = None ->
  motionTimers w'
  = <[cam := {| timer_id := next_timer w; timer_delay := delay |}]>
      (motionTimers w) ->
  pending w' = <[next_timer w := cam]> (pending w) ->
  next_timer w' = S (next_timer w) ->
  timers_consistent w'.
Proof.
  intros (Hmp & Hpm & Hlt) Hidle Em Ep En. unfold timers_consistent.
  rewrite Em, Ep, En. split; [| split].
  - intros cam' t' H. apply lookup_insert_Some in H as [[<- <-] | [Hne H]].
    + simpl. apply lookup_insert_eq.
    + assert (Hp := Hmp _ _ H). rewrite lookup_insert_ne; [exact Hp |].
      intros Heq. assert (Hb : (timer_id t' < next_timer w)%nat)
        by (apply Hlt; by exists cam').
      lia.
  - intros id cam' H. apply lookup_insert_Some in H as [[<- <-] | [Hne H]].
    + eexists. split; [apply lookup_insert_eq | reflexivity].
    + destruct (Hpm _ _ H) as (t' & Ht' & Hid). exists t'. split; [| exact Hid].
      rewrite lookup_insert_ne; [exact Ht' |]. intros <-. congruence.
  - intros id [c H]. apply lookup_insert_Some in H as [[<- _] | [_ H]]; [lia |].
    assert ((id < next_timer w)%nat) by (apply Hlt; by exists c). lia.
Qed.

Lemma consistent_same w w' :
  timers_consistent w ->
  motionTimers w' = motionTimers w ->
  pending w' = pending w ->
  next_timer w' = next_timer w ->
  timers_consistent w'.
Proof. unfold timers_consistent. by intros H -> -> ->. Qed.

Lemma handleMotion_consistent cameras triggerType cameraName state event
    result generalSettings w :
  timers_consistent w ->
  timers_consistent
    (snd (handleMotion cameras triggerType cameraName state event result
            generalSettings w)).
Proof.
  intros Hw. unfold handleMotion.
  destruct (getCamera cameras cameraName) as [c|]; [| exact Hw].
  destruct (_ && _); [exact Hw |].
  destruct (recordOnMovement c);
    [| by apply (consistent_same w)].
  cbn [controller_emit motionTimers].
  destruct (motionTimers w !! name c) as [t|] eqn:Ht.
  - destruct state; by apply (consistent_remove w _ (name c) t).
  - destruct (state && _); [| by apply (consistent_same w)].
    by eapply (consistent_arm w _ (name c)).
Qed.

Lemma expire_consistent id w :
  timers_consistent w -> timers_consistent (expire id w).
Proof.
  intros Hw. unfold expire. destruct (pending w !! id) as [cam|] eqn:Hp;
    [| exact Hw].
  destruct Hw as (Hmp & Hpm & Hlt).
  destruct (Hpm _ _ Hp) as (t & Ht & <-).
  by apply (consistent_remove w _ cam t).
Qed.

Lemma step_consistent cameras e w :
  timers_consistent w -> timers_consistent (step cameras e w).
Proof.
  destruct e; simpl;
    [apply handleMotion_consistent | apply expire_consistent].
Qed.

Lemma run_consistent cameras es w :
  timers_consistent w -> timers_consistent (run cameras es w).
Proof.
  revert w. induction es as [| e es IH]; intros w Hw; [exact Hw |].
  apply IH. by apply step_consistent.
Qed.

Lemma initial_consistent : timers_consistent initial.
Proof.
  split; [| split].
  - intros cam t H. simpl in H. by rewrite lookup_empty in H.
  - intros id cam H. simpl in H. by rewrite lookup_empty in H.
  - intros id [c H]. simpl in H. by rewrite lookup_empty in H.
Qed.

(** X1. After any sequence of triggers and timeout expiries on a fresh
    controller, the timer map and the event loop agree: the handle stored
    for a camera is a pending timeout of that camera, every pending timeout
    is the handle stored for its camera (no timeout is leaked, none is
    stale), and no identity is handed out twice. *)
Theorem reachable_timers_consistent cameras es :
  timers_consistent (run cameras es initial).
Proof. apply run_consistent, initial_consistent. Qed.

(** ** What one call of the resolver does to the timers *)

(** A call leaves the timers alone, or removes the entry of its camera
    together with its timeout, or arms its camera with a fresh timeout. *)
Lemma handleMotion_timers cameras triggerType cameraName state event result
    generalSettings w :
  let w' :=
    snd (handleMotion cameras triggerType cameraName state event result
           generalSettings w) in
  (motionTimers w' = motionTimers w /\ pending w' = pending w
   /\ next_timer w' = next_timer w)
  \/ (exists t,
        motionTimers w !! cameraName = Some t
        /\ motionTimers w' = delete cameraName (motionTimers w)
        /\ pending w' = delete (timer_id t) (pending w)
        /\ next_timer w' = next_timer w)
  \/ (exists c,
        getCamera cameras cameraName = Some c
        /\ recordOnMovement c = true /\ state = true
        /\ 0 < timeoutConfig c
        /\ motionTimers w !! cameraName = None
        /\ motionTimers w'
           = <[cameraName := {| timer_id := next_timer w;
                                timer_delay :=
                                  timeout_delay (timeoutConfig c * 1000) |}]>
               (motionTimers w)
        /\ pending w' = <[next_timer w := cameraName]> (pending w)
        /\ next_timer w' = S (next_timer w)).
Proof.
  unfold handleMotion.
  destruct (getCamera cameras cameraName) as [c|] eqn:Hc; [| by left].
  destruct (getCamera_Some _ _ _ Hc) as [_ Hn].
  destruct (_ && _); [by left |].
  destruct (recordOnMovement c) eqn:Hrec; [| by left].
  rewrite Hn. cbn [controller_emit motionTimers].
  destruct (motionTimers w !! cameraName) as [t|] eqn:Ht.
  - right. left. exists t. by destruct state.
  - destruct state; [| by left]. cbn [andb].
    fold (timeoutConfig c).
    destruct (0 <? timeoutConfig c) eqn:Hpos; [| by left].
    right. right. exists c. apply Z.ltb_lt in Hpos. by repeat split.
Qed.

Lemma expire_timers id w :
  (pending w !! id = None /\ expire id w = w)
  \/ (exists cam,
        pending w !! id = Some cam
        /\ motionTimers (expire id w) = delete cam (motionTimers w)
        /\ pending (expire id w) = delete id (pending w)
        /\ next_timer (expire id w) = next_timer w
        /\ handled (expire id w) = handled w
        /\ emitted (expire id w) = emitted w
        /\ logged (expire id w) = logged w ++ [LogTimeout cam]).
Proof.
  unfold expire. destruct (pending w !! id) as [cam|]; [| by left].
  right. exists cam. by repeat split.
Qed.

(** X2. On a controller started fresh, whatever triggers and expiries it
    has processed, every entry of the timer map belongs to a camera of the
    registry that records on movement and whose [motionTimeout] is not
    zero, and its delay is the delay the runtime gives to that camera's
    timeout: [motionTimeout * 1000] ms when the configured value is
    positive and the product is at most 2147483647, 1 ms when the product
    is larger, and 1000 ms when the configured value is negative. *)
Theorem reachable_entries_are_configured cameras es cam t :
  motionTimers (run cameras es initial) !! cam = Some t ->
  exists c,
    getCamera cameras cam = Some c
    /\ recordOnMovement c = true
    /\ motionTimeout c <> 0
    /\ timer_delay t = timeout_delay (timeoutConfig c * 1000)
    /\ (0 < motionTimeout c <= 2147483 ->
        timer_delay t = motionTimeout c * 1000)
    /\ (2147483 < motionTimeout c -> timer_delay t = 1)
    /\ (motionTimeout c < 0 -> timer_delay t = 1000).
Proof.
  assert (Hgen : forall w,
            (forall cam t, motionTimers w !! cam = Some t ->
               exists c, getCamera cameras cam = Some c
                         /\ recordOnMovement c = true
                         /\ 0 < timeoutConfig c
                         /\ timer_delay t
                            = timeout_delay (timeoutConfig c * 1000)) ->
            forall cam t, motionTimers (run cameras es w) !! cam = Some t ->
               exists c, getCamera cameras cam = Some c
                         /\ recordOnMovement c = true
                         /\ 0 < timeoutConfig c
                         /\ timer_delay t
                            = timeout_delay (timeoutConfig c * 1000)).
  { induction es as [| e es IH]; intros w Hw; [exact Hw |].
    apply IH. clear IH. intros cam' t' H.
    destruct e as [tt cn st ev r gs | id]; simpl in H.
    - destruct (handleMotion_timers cameras tt cn st ev r gs w)
        as [(Em & _) | [(t0 & _ & Em & _) | (c & Hc & Hrec & _ & Hpos & _ & Em & _)]];
        rewrite Em in H.
      + by apply Hw.
      + apply lookup_delete_Some in H as [_ H]. by apply Hw.
      + apply lookup_insert_Some in H as [[<- <-] | [_ H]]; [| by apply Hw].
        exists c. by repeat split.
    - destruct (expire_timers id w) as [[_ E] | (c0 & _ & Em & _)].
      + rewrite E in H. by apply Hw.
      + rewrite Em in H. apply lookup_delete_Some in H as [_ H]. by apply Hw. }
  intros H. destruct (Hgen initial) with (cam := cam) (t := t)
    as (c & Hc & Hrec & Hpos & Hdelay); [| exact H |].
  - intros cam' t' H'. simpl in H'. by rewrite lookup_empty in H'.
  - exists c. split; [exact Hc |]. split; [exact Hrec |].
    rewrite Hdelay. unfold timeoutConfig in Hpos |- *.
    unfold timeout_delay, TIMEOUT_MAX.
    destruct (0 <=? motionTimeout c) eqn:E1.
    + apply Z.leb_le in E1.
      split; [lia |]. split; [reflexivity |]. split; [| split].
      * intros Hr.
        replace (1 <=? motionTimeout c * 1000) with true
          by (symmetry; apply Z.leb_le; lia).
        replace (motionTimeout c * 1000 <=? 2147483647) with true
          by (symmetry; apply Z.leb_le; lia).
        reflexivity.
      * intros Hr.
        replace (motionTimeout c * 1000 <=? 2147483647) with false
          by (symmetry; apply Z.leb_gt; lia).
        by rewrite andb_false_r.
      * lia.
    + apply Z.leb_gt in E1.
      split; [lia |]. split; [reflexivity |]. split; [lia |].
      split; [lia |]. reflexivity.
Qed.

Lemma reachable_entries_are_configured_witness :
  exists c,
    getCamera sample_cameras "Shed" = Some c
    /\ recordOnMovement c = true
    /\ motionTimeout c <> 0
    /\ 1000 = timeout_delay (timeoutConfig c * 1000)
    /\ (0 < motionTimeout c <= 2147483 -> 1000 = motionTimeout c * 1000)
    /\ (2147483 < motionTimeout c -> 1000 = 1)
    /\ (motionTimeout c < 0 -> 1000 = 1000).
Proof.
  apply (reachable_entries_are_configured sample_cameras
           [Trigger (Some "motion") "Shed" true "http" sample_result None]
           "Shed" {| timer_id := 0; timer_delay := 1000 |}).
  reflexivity.
Defined.

(** ** Errors and the HTTP status *)

Lemma handleMotion_error cameras triggerType cameraName state event result
    generalSettings w :
  error (fst (handleMotion cameras triggerType cameraName state event result
                generalSettings w))
  = match getCamera cameras cameraName with
    | Some _ => false
    | None => true
    end.
Proof.
  unfold handleMotion.
  destruct (getCamera cameras cameraName) as [c|]; [| reflexivity].
  destruct (_ && _); [reflexivity |].
  destruct (recordOnMovement c); [| reflexivity].
  cbn [controller_emit motionTimers].
  destruct (motionTimers w !! name c); [by destruct state |].
  by destruct (state && _).
Qed.

Lemma http_normalize_call parse decodeURIComponent url path q cameraName :
  url <> "" ->
  parse url = {| pathname := Some path; query := Some q |} ->
  path <> "" -> q <> "" ->
  decodeURIComponent q = Some cameraName ->
  http_normalize parse decodeURIComponent url
  = HttpCall (fst (http_trigger path)) cameraName (snd (http_trigger path)).
Proof.
  intros Hurl Hparse Hpath Hq Hdec. unfold http_normalize.
  rewrite (truthy_Some _ Hurl), Hparse. simpl pathname. simpl query.
  rewrite (truthy_Some _ Hpath), (truthy_Some _ Hq). simpl.
  rewrite Hdec. by destruct (http_trigger path).
Qed.

(** X3. A request with a non-empty path name and a non-empty query that
    decodes to a camera name is always answered, and the status depends on
    the registry alone: 200 when the camera is known (also when the trigger
    is skipped by the presence policy or by the debounce), 500 when it is
    not. The body is the resolver's result and one line is logged. *)
Theorem http_status_reflects_registry cameras parse decodeURIComponent url path
    q cameraName generalSettings w :
  url <> "" ->
  parse url = {| pathname := Some path; query := Some q |} ->
  path <> "" -> q <> "" ->
  decodeURIComponent q = Some cameraName ->
  let resolved :=
    handleMotion cameras (fst (http_trigger path)) cameraName
      (snd (http_trigger path)) "http"
      {| error := true; message := "Malformed URL " +:+ url |}
      generalSettings w in
  http_request cameras parse decodeURIComponent url generalSettings w
  = (Some {| status := match getCamera cameras cameraName with
                       | Some _ => 200
                       | None => 500
                       end;
             body := fst resolved |},
     log (LogHttp (fst resolved) (Some cameraName)) (snd resolved)).
Proof.
  intros Hurl Hparse Hpath Hq Hdec resolved. unfold http_request.
  rewrite (http_normalize_call _ _ _ _ _ _ Hurl Hparse Hpath Hq Hdec).
  fold resolved. pose proof (handleMotion_error cameras
    (fst (http_trigger path)) cameraName (snd (http_trigger path)) "http"
    {| error := true; message := "Malformed URL " +:+ url |}
    generalSettings w) as He.
  fold resolved in He. destruct resolved as [r w']. simpl in He |- *.
  unfold http_respond. rewrite He.
  by destruct (getCamera cameras cameraName).
Qed.

Lemma http_status_reflects_registry_witness :
  fst (http_request sample_cameras sample_parse sample_decode
         "/motion?Unknown" None initial)
  = Some {| status := 500;
            body := {| error := true;
                       message := "Camera 'Unknown' not found" |} |}
  /\ fst (http_request sample_cameras sample_parse sample_decode
            "/doorbell?Garage"
            (Some {| atHome := true; exclude := None |}) initial)
     = Some {| status := 200;
               body := {| error := false;
                          message := "Skip motion trigger. At Home is active and Garage is not excluded!" |} |}.
Proof.
  split.
  - rewrite (http_status_reflects_registry sample_cameras sample_parse
               sample_decode "/motion?Unknown" "/motion" "Unknown" "Unknown"
               None initial);
      [reflexivity | discriminate | reflexivity | discriminate | discriminate
      | reflexivity].
  - rewrite (http_status_reflects_registry sample_cameras sample_parse
               sample_decode "/doorbell?Garage" "/doorbell" "Garage" "Garage"
               (Some {| atHome := true; exclude := None |}) initial);
      [reflexivity | discriminate | reflexivity | discriminate | discriminate
      | reflexivity].
Defined.

(** ** Arming, expiry and reset *)

(** X4. Arming and expiry undo each other. For a known recording camera
    that is idle, not suppressed and has a positive timeout, a positive
    trigger stores a fresh timeout for it, whose delay is the one the
    runtime gives to a request of [timeout * 1000] ms (that many
    milliseconds up to 2147483647, and 1 ms beyond); when that timeout
    runs, the timer map and the pending timeouts are exactly what they were
    before the trigger, nothing is emitted or forwarded by the expiry, and
    one "Motion handler timeout." line is logged. *)
Theorem arm_then_expire_restores cameras camera triggerType cameraName event
    result generalSettings w :
  getCamera cameras cameraName = Some camera ->
  recordOnMovement camera = true ->
  suppressed generalSettings cameraName = false ->
  0 < timeoutConfig camera ->
  motionTimers w !! cameraName = None ->
  pending w !! next_timer w = None ->
  let w1 :=
    snd (handleMotion cameras triggerType cameraName true event result
           generalSettings w) in
  let w2 := expire (next_timer w) w1 in
  motionTimers w1 !! cameraName
  = Some {| timer_id := next_timer w;
            timer_delay := timeout_delay (timeoutConfig camera * 1000) |}
  /\ pending w1 !! next_timer w = Some cameraName
  /\ motionTimers w2 = motionTimers w
  /\ pending w2 = pending w
  /\ emitted w2 = emitted w1
  /\ handled w2 = handled w1
  /\ logged w2 = logged w1 ++ [LogTimeout cameraName].
Proof.
  intros Hc Hrec Hs Hpos Hidle Hfresh w1 w2. subst w2 w1.
  rewrite (handleMotion_idle_arm _ _ _ event result _ _ Hc Hs Hrec w Hidle Hpos).
  cbn [snd]. unfold expire. simpl.
  rewrite !lookup_insert_eq. simpl.
  rewrite delete_insert_id by exact Hidle.
  rewrite delete_insert_id by exact Hfresh.
  by repeat split.
Qed.

Lemma arm_then_expire_restores_witness :
  let w1 :=
    snd (handleMotion sample_cameras (Some "motion") "Garage" true "http"
           sample_result None initial) in
  motionTimers (expire 0 w1) = ∅ /\ pending (expire 0 w1) = ∅.
Proof.
  pose proof (arm_then_expire_restores sample_cameras garage (Some "motion")
                "Garage" "http" sample_result None initial
                eq_refl eq_refl eq_refl eq_refl eq_refl eq_refl)
    as (_ & _ & H3 & H4 & _).
  split; [exact H3 | exact H4].
Defined.

(** X5. Arming and reset undo each other. For a known recording camera
    that is idle and has a positive timeout, a positive trigger followed by
    a reset trigger (neither suppressed by the presence policy) leaves the
    timer map and the pending timeouts exactly as they were, and forwards
    first the positive trigger and then the reset to the event controller. *)
Theorem arm_then_reset_restores cameras camera triggerType cameraName event1
    event2 result1 result2 settings1 settings2 w :
  getCamera cameras cameraName = Some camera ->
  recordOnMovement camera = true ->
  suppressed settings1 cameraName = false ->
  suppressed settings2 cameraName = false ->
  0 < timeoutConfig camera ->
  motionTimers w !! cameraName = None ->
  pending w !! next_timer w = None ->
  let w1 :=
    snd (handleMotion cameras triggerType cameraName true event1 result1
           settings1 w) in
  let w2 :=
    snd (handleMotion cameras triggerType cameraName false event2 result2
           settings2 w1) in
  motionTimers w2 = motionTimers w
  /\ pending w2 = pending w
  /\ handled w2
     = handled w
         ++ [{| sink_trigger := triggerType; sink_camera := cameraName;
                sink_state := true |};
             {| sink_trigger := triggerType; sink_camera := cameraName;
                sink_state := false |}].
Proof.
  intros Hc Hrec Hs1 Hs2 Hpos Hidle Hfresh w1 w2. subst w2 w1.
  rewrite (handleMotion_idle_arm _ _ _ event1 result1 _ _ Hc Hs1 Hrec w Hidle
             Hpos).
  cbn [snd].
  erewrite (handleMotion_armed_false _ _ _ event2 result2 _ _ Hc Hs2 Hrec);
    [| simpl; apply lookup_insert_eq].
  simpl. rewrite delete_insert_id by exact Hidle.
  rewrite delete_insert_id by exact Hfresh.
  split; [reflexivity |]. split; [reflexivity |]. by rewrite <- app_assoc.
Qed.

Lemma arm_then_reset_restores_witness :
  let w1 :=
    snd (handleMotion sample_cameras (Some "motion") "Garage" true "http"
           sample_result None initial) in
  let w2 :=
    snd (handleMotion sample_cameras (Some "motion") "Garage" false "http"
           sample_result None w1) in
  motionTimers w2 = ∅ /\ pending w2 = ∅.
Proof.
  pose proof (arm_then_reset_restores sample_cameras garage (Some "motion")
                "Garage" "http" "http" sample_result sample_result None None
                initial eq_refl eq_refl eq_refl eq_refl eq_refl eq_refl
                eq_refl) as (H1 & H2 & _).
  split; [exact H1 | exact H2].
Defined.

(** ** Cameras do not interfere *)



Lemma step_keeps_armed cameras e w cam t :
  timers_consistent w ->
  motionTimers w !! cam = Some t ->
  concerns cam e = false ->
  e <> Expire (timer_id t) ->
  motionTimers (step cameras e w) !! cam = Some t.
Proof.
  intros Hw Ht Hc He. destruct e as [tt cn st ev r gs | id]; simpl.
  - rewrite handleMotion_other; [exact Ht |].
    simpl in Hc. by apply String.eqb_neq in Hc.
  - destruct (expire_timers id w) as [[_ ->] | (c0 & Hp & Em & _)];
      [exact Ht |].
    rewrite Em, lookup_delete_ne; [exact Ht |].
    intros ->. destruct Hw as (Hmp & Hpm & _).
    destruct (Hpm _ _ Hp) as (t' & Ht' & Hid). rewrite Ht in Ht'.
    injection Ht' as <-. congruence.
Qed.

(** X7. An armed camera stays armed with the same timeout through any
    events that are neither triggers for it nor the expiry of its own
    timeout (triggers for other cameras, expiries of other timeouts); a
    positive trigger for it that then arrives, and that the presence policy
    lets through, is answered with "Skip motion event, timeout active!" and
    is not forwarded to the event controller. *)
Theorem armed_until_own_event cameras camera cameraName t es w :
  timers_consistent w ->
  getCamera cameras cameraName = Some camera ->
  recordOnMovement camera = true ->
  motionTimers w !! cameraName = Some t ->
  Forall (fun e => concerns cameraName e = false /\ e <> Expire (timer_id t))
    es ->
  let w' := run cameras es w in
  motionTimers w' !! cameraName = Some t
  /\ forall triggerType event result generalSettings,
     suppressed generalSettings cameraName = false ->
     let next :=
       handleMotion cameras triggerType cameraName true event result
         generalSettings w' in
     fst next
     = {| error := false; message := "Skip motion event, timeout active!" |}
     /\ handled (snd next) = handled w'.
Proof.
  intros Hw Hc Hrec Ht Hes w'.
  assert (Ht' : motionTimers w' !! cameraName = Some t).
  { subst w'. revert w Hw Ht.
    induction Hes as [| e es [He1 He2] _ IH]; intros w Hw Ht; [exact Ht |].
    apply IH; [by apply step_consistent | by apply step_keeps_armed]. }
  split; [exact Ht' |].
  intros tt ev r gs Hs next. subst next.
  by rewrite (handleMotion_armed_true _ _ _ ev r _ _ Hc Hs Hrec _ _ Ht').
Qed.

Lemma armed_until_own_event_witness :
  let w' :=
    run sample_cameras
      [Trigger (Some "motion") "Shed" true "http" sample_result None;
       Expire 1;
       Trigger (Some "doorbell") "Porch" true "mqtt" sample_result None]
      armed_garage in
  fst (handleMotion sample_cameras (Some "motion") "Garage" true "http"
         sample_result None w')
  = {| error := false; message := "Skip motion event, timeout active!" |}.
Proof.
  destruct (armed_until_own_event sample_cameras garage "Garage"
              {| timer_id := 0; timer_delay := 10000 |}
              [Trigger (Some "motion") "Shed" true "http" sample_result None;
               Expire 1;
               Trigger (Some "doorbell") "Porch" true "mqtt" sample_result None]
              armed_garage) as [_ H].
  - apply (run_consistent sample_cameras
             [Trigger (Some "motion") "Garage" true "http" sample_result None]
             initial initial_consistent).
  - reflexivity.
  - reflexivity.
  - reflexivity.
  - repeat constructor; discriminate.
  - exact (proj1 (H (Some "motion") "http" sample_result None eq_refl)).
Defined.

(** ** Forwards and notifications *)

Lemma step_forwards_sublist cameras e w :
  handled w `sublist_of` map emit_as_call (emitted w) ->
  handled (step cameras e w)
    `sublist_of` map emit_as_call (emitted (step cameras e w)).
Proof.
  intros Hw. destruct e as [tt cn st ev r gs | id]; simpl.
  - unfold handleMotion.
    destruct (getCamera cameras cn) as [c|]; [| exact Hw].
    destruct (_ && _); [exact Hw |].
    destruct (recordOnMovement c).
    + cbn [controller_emit motionTimers].
      destruct (motionTimers w !! name c).
      * destruct st; simpl; rewrite map_app.
        -- by apply sublist_inserts_r.
        -- by apply sublist_app.
      * destruct (st && _); simpl; rewrite map_app; by apply sublist_app.
    + simpl. rewrite map_app. by apply sublist_inserts_r.
  - destruct (expire_timers id w) as [[_ ->] | (c0 & _ & _ & _ & _ & -> & -> & _)];
      exact Hw.
Qed.

(** X8. Every forward has its notification. On a controller started fresh,
    after any triggers and expiries, the calls made to the event controller
    are, in order, a subsequence of the motion notifications emitted on the
    controller: no trigger reaches the event controller without having
    been emitted, and an expiry forwards nothing. *)
Theorem forwards_are_notified cameras es :
  handled (run cameras es initial)
    `sublist_of` map emit_as_call (emitted (run cameras es initial)).
Proof.
  assert (Hgen : forall w,
            handled w `sublist_of` map emit_as_call (emitted w) ->
            handled (run cameras es w)
              `sublist_of` map emit_as_call (emitted (run cameras es w))).
  { induction es as [| e es IH]; intros w Hw; [exact Hw |].
    apply IH. by apply step_forwards_sublist. }
  apply Hgen. simpl. constructor.
Qed.

(** ** What the MQTT listener and the external entry point never do *)

Lemma reset_never_arms cameras triggerType cameraName event result
    generalSettings w (cam : string) :
  motionTimers w !! cam = None ->
  motionTimers
    (snd (handleMotion cameras triggerType cameraName false event result
            generalSettings w)) !! cam = None.
Proof.
  intros Hidle.
  destruct (handleMotion_timers cameras triggerType cameraName false event
              result generalSettings w)
    as [(Em & _) | [(t & _ & Em & _) | (c & _ & _ & Hst & _)]];
    [by rewrite Em | | discriminate].
  rewrite Em. apply lookup_delete_None. by right.
Qed.

(** X9. A topic mapped with [motion] and [reset] set can only reset: a
    message on it is handed to the resolver only when its payload is
    [motionResetMessage], and then with [state = false]; every other
    payload ([motionMessage] too, unless it is the same text as
    [motionResetMessage]) is rejected as unresolved; and no message on it,
    whatever its payload, ever creates a timer entry. *)
Theorem reset_topic_never_arms cameras topics topic m msg generalSettings w :
  topics !! topic = Some m ->
  motion m = true ->
  reset m = true ->
  (forall triggerType cameraName state,
     mqtt_normalize topics topic msg = MqttCall triggerType cameraName state ->
     state = false /\ msg = motionResetMessage m)
  /\ (msg <> motionResetMessage m ->
      mqtt_normalize topics topic msg = MqttUnresolved)
  /\ forall cam : string,
     motionTimers w !! cam = None ->
     motionTimers
       (snd (mqtt_message cameras topics topic msg generalSettings w)) !! cam
     = None.
Proof.
  intros Hm Hmo Hre.
  assert (Hn : (msg = motionResetMessage m
                /\ mqtt_normalize topics topic msg
                   = MqttCall "motion" (camera m) false)
               \/ (msg <> motionResetMessage m
                   /\ mqtt_normalize topics topic msg = MqttUnresolved)).
  { unfold mqtt_normalize, mqtt_state, mqtt_triggerType.
    rewrite Hm, Hmo, Hre. simpl.
    destruct (String.eqb_spec msg (motionResetMessage m)); [by left | by right]. }
  split; [| split].
  - intros tt cn st H. destruct Hn as [[Heq Hn] | [_ Hn]]; rewrite Hn in H.
    + split; [congruence | exact Heq].
    + discriminate.
  - intros Hne. by destruct Hn as [[Heq _] | [_ Hn]].
  - intros cam Hidle. unfold mqtt_message.
    destruct Hn as [[_ ->] | [_ ->]]; [| exact Hidle].
    pose proof (reset_never_arms cameras (Some "motion") (camera m) "mqtt"
                  {| error := true;
                     message := "Malformed MQTT message " +:+ msg +:+ " ("
                                  +:+ topic +:+ ")" |}
                  generalSettings w cam Hidle) as H.
    destruct (handleMotion _ _ _ _ _ _ _ _) as [r w']. exact H.
Qed.

Lemma reset_topic_never_arms_witness :
  let topics : gmap string TopicMapping :=
    {[ "cam/Garage/off" :=
         {| camera := "Garage"; motion := true; reset := true;
            motionMessage := "ON"; motionResetMessage := "OFF" |} ]} in
  mqtt_normalize topics "cam/Garage/off" "ON" = MqttUnresolved
  /\ motionTimers
       (snd (mqtt_message sample_cameras topics "cam/Garage/off" "ON" None
               initial)) !! "Garage"
     = None.
Proof.
  intros topics.
  destruct (reset_topic_never_arms sample_cameras topics "cam/Garage/off"
              {| camera := "Garage"; motion := true; reset := true;
                 motionMessage := "ON"; motionResetMessage := "OFF" |}
              "ON" None initial eq_refl eq_refl eq_refl) as (_ & H2 & H3).
  split; [apply H2; discriminate | apply H3; reflexivity].
Defined.

(** The messages the resolver can return. *)
Lemma handleMotion_message cameras triggerType cameraName state event result
    generalSettings w :
  let m :=
    message (fst (handleMotion cameras triggerType cameraName state event
                    result generalSettings w)) in
  m = "Skip motion trigger. At Home is active and " +:+ cameraName
        +:+ " is not excluded!"
  \/ m = "Handled through extern controller"
  \/ m = "Skip motion event, timeout active!"
  \/ m = "Handled through intern controller"
  \/ m = "Camera '" +:+ cameraName +:+ "' not found".
Proof.
  unfold handleMotion.
  destruct (getCamera cameras cameraName) as [c|]; [| by do 4 right].
  destruct (_ && _); [by left |].
  destruct (recordOnMovement c); [| by right; left].
  cbn [controller_emit motionTimers].
  destruct (motionTimers w !! name c).
  - destruct state; [by do 2 right; left | by right; left].
  - destruct (state && _); by do 3 right; left.
Qed.

(** X10. The result the MQTT listener starts from, "Malformed MQTT message
    <payload> (<topic>)", is never the result it logs: every path through
    the listener replaces it. *)
Theorem mqtt_default_result_is_dead cameras topics topic msg generalSettings w :
  message (fst (mqtt_message cameras topics topic msg generalSettings w))
  <> "Malformed MQTT message " +:+ msg +:+ " (" +:+ topic +:+ ")".
Proof.
  unfold mqtt_message. destruct (mqtt_normalize topics topic msg) as [| | tt cn st].
  - simpl. discriminate.
  - simpl. discriminate.
  - pose proof (handleMotion_message cameras (Some tt) cn st "mqtt"
                  {| error := true;
                     message := "Malformed MQTT message " +:+ msg +:+ " ("
                                  +:+ topic +:+ ")" |} generalSettings w) as H.
    destruct (handleMotion _ _ _ _ _ _ _ _) as [r w']. simpl in H |- *.
    destruct H as [-> | [-> | [-> | [-> | ->]]]]; discriminate.
Qed.

Lemma handleMotion_logged cameras triggerType cameraName state event result
    generalSettings w :
  logged (snd (handleMotion cameras triggerType cameraName state event result
                 generalSettings w)) = logged w.
Proof.
  unfold handleMotion.
  destruct (getCamera cameras cameraName) as [c|]; [| reflexivity].
  destruct (_ && _); [reflexivity |].
  destruct (recordOnMovement c); [| reflexivity].
  cbn [controller_emit motionTimers].
  destruct (motionTimers w !! name c); [by destruct state |].
  by destruct (state && _).
Qed.

(** X11. An external event ([triggerMotion]) logs exactly one line; the
    result in it is never the initial "Custom event could not be handled",
    and it is an error exactly when the camera is not in the registry. *)
Theorem triggerMotion_logs_resolver_result cameras cameraName state
    generalSettings w :
  exists r,
    logged (triggerMotion cameras cameraName state generalSettings w)
    = logged w ++ [LogExtern r cameraName]
    /\ message r <> "Custom event could not be handled"
    /\ (error r = true <-> getCamera cameras cameraName = None).
Proof.
  unfold triggerMotion.
  pose proof (handleMotion_message cameras (Some "custom") cameraName state
                "extern"
                {| error := true;
                   message := "Custom event could not be handled" |}
                generalSettings w) as Hm.
  pose proof (handleMotion_error cameras (Some "custom") cameraName state
                "extern"
                {| error := true;
                   message := "Custom event could not be handled" |}
                generalSettings w) as He.
  pose proof (handleMotion_logged cameras (Some "custom") cameraName state
                "extern"
                {| error := true;
                   message := "Custom event could not be handled" |}
                generalSettings w) as Hl.
  destruct (handleMotion _ _ _ _ _ _ _ _) as [r w'].
  simpl in Hm, He, Hl |- *. exists r. rewrite Hl. split; [reflexivity |].
  split.
  - destruct Hm as [-> | [-> | [-> | [-> | ->]]]]; discriminate.
  - rewrite He. by destruct (getCamera cameras cameraName).
Qed.

(** ** The camera lookup *)

(** X12. [#getCamera] returns the first camera with the requested name:
    [null] entries and cameras with other names in front of it are skipped,
    and later cameras with the same name are never returned. *)
Theorem getCamera_first_match (before after : list (option CameraConfig)) c :
  (forall c', Some c' ∈ before -> name c' <> name c) ->
  getCamera (before ++ Some c :: after) (name c) = Some c.
Proof.
  unfold getCamera. induction before as [| x before IH]; intros H; simpl.
  - by rewrite String.eqb_refl.
  - destruct x as [c'|].
    + assert (Hne : name c' <> name c) by (apply H; left).
      apply String.eqb_neq in Hne. rewrite Hne.
      apply IH. intros c'' Hin. apply H. by right.
    + apply IH. intros c'' Hin. apply H. by right.
Qed.

Lemma getCamera_first_match_witness :
  getCamera
    ([None; Some {| name := "Porch"; recordOnMovement := false;
                    motionTimeout := 10 |}]
     ++ Some garage
     :: [Some {| name := "Garage"; recordOnMovement := false;
                 motionTimeout := 0 |}]) "Garage"
  = Some garage.
Proof.
  apply (getCamera_first_match
           [None; Some {| name := "Porch"; recordOnMovement := false;
                          motionTimeout := 10 |}] _ garage).
  intros c' Hin. apply list_elem_of_In in Hin.
  destruct Hin as [H | [H | []]]; [discriminate |].
  injection H as <-. discriminate.
Defined.

(** ** Substrings, pieces and replacement *)

Lemma prefix_app n b : String.prefix n (n +:+ b) = true.
Proof.
  induction n as [| c n IH]; simpl; [by destruct b |].
  destruct (ascii_dec c c); [exact IH | congruence].
Qed.

Lemma includes_prefix n s : String.prefix n s = true -> includes n s = true.
Proof. intros H. destruct s; cbn [includes]; by rewrite H. Qed.

Lemma includes_app n a b : includes n (a +:+ n +:+ b) = true.
Proof.
  induction a as [| c a IH].
  - change ("" +:+ n +:+ b) with (n +:+ b). apply includes_prefix, prefix_app.
  - change (String c a +:+ n +:+ b) with (String c (a +:+ n +:+ b)).
    cbn [includes]. rewrite IH. apply orb_true_r.
Qed.

Lemma includes_char c a s :
  includes (String c "") (String a s)
  = Ascii.eqb a c || includes (String c "") s.
Proof.
  simpl. destruct (ascii_dec c a) as [-> | Hne].
  - rewrite Ascii.eqb_refl. by destruct s.
  - apply not_eq_sym in Hne. apply Ascii.eqb_neq in Hne. by rewrite Hne.
Qed.

Lemma split_no_sep sep s :
  includes (String sep "") s = false -> split sep s = [s].
Proof.
  induction s as [| a s IH]; [reflexivity |].
  rewrite includes_char. intros H. apply orb_false_iff in H as [Ha Hs].
  simpl. by rewrite Ha, (IH Hs).
Qed.

Lemma split_head_app sep l rest :
  includes (String sep "") l = false ->
  split sep (l +:+ String sep rest) !! 0%nat = Some l.
Proof.
  induction l as [| a l IH].
  - intros _. simpl. by rewrite Ascii.eqb_refl.
  - rewrite includes_char. intros H. apply orb_false_iff in H as [Ha Hs].
    simpl. rewrite Ha. specialize (IH Hs).
    destruct (split sep (l +:+ String sep rest)) as [| h t]; [discriminate |].
    simpl in IH |- *. by injection IH as ->.
Qed.

Lemma includes_false_cons n a s :
  includes n (String a s) = false ->
  String.prefix n (String a s) = false /\ includes n s = false.
Proof. simpl. intros H. by apply orb_false_iff in H. Qed.

Lemma replace_from_absent pat by_ s :
  includes pat s = false -> replace_from pat by_ 0 s = s.
Proof.
  induction s as [| a s IH]; [reflexivity |].
  intros H. apply includes_false_cons in H as [Hp Hs].
  cbn [replace_from]. by rewrite Hp, (IH Hs).
Qed.

Lemma replace_from_char d by_ s :
  replace_from (String d "") (String by_ "") 0 s
  = map_chars (fun c => if Ascii.eqb c d then by_ else c) s.
Proof.
  induction s as [| a s IH]; [reflexivity |].
  cbn [replace_from map_chars]. simpl String.prefix. simpl String.length.
  destruct (ascii_dec d a) as [-> | Hne].
  - rewrite Ascii.eqb_refl.
    replace (String.prefix "" s) with true by (by destruct s).
    simpl. by rewrite IH.
  - apply not_eq_sym in Hne. apply Ascii.eqb_neq in Hne. by rewrite Hne, IH.
Qed.

(** X13. Any path name that contains "/reset", wherever it occurs and
    whatever the first segment is ("/motion/reset", "/doorbell/reset",
    "/resetting"), is normalised to a motion reset; and no path name makes
    the handler hand the trigger type "reset" to the resolver. *)
Theorem reset_anywhere_is_motion_reset (front back path : string) :
  http_trigger (front +:+ "/reset" +:+ back) = (Some "motion", false)
  /\ fst (http_trigger path) <> Some "reset".
Proof.
  split.
  - apply http_trigger_on_reset, includes_app.
  - destruct (includes "/reset" path) eqn:E.
    + by rewrite (http_trigger_on_reset _ E).
    + rewrite (http_trigger_on_other _ E). simpl. intros H.
      apply split_second_includes in H. congruence.
Qed.

(** X14. Splitting a string at a separator loses nothing: joining the
    pieces with the separator gives the string back, there is always at
    least one piece, and no piece contains the separator. *)
Theorem split_join_round_trip sep s :
  join sep (split sep s) = s
  /\ split sep s <> []
  /\ Forall (fun piece => includes (String sep "") piece = false)
       (split sep s).
Proof.
  induction s as [| a s (IHj & IHn & IHf)].
  - simpl. repeat split; [discriminate | by repeat constructor].
  - destruct (split_cons sep s) as (h & t & E). rewrite E in *.
    cbn [split]. rewrite E.
    destruct (Ascii.eqb_spec a sep) as [-> | Hne].
    + split; [| split; [discriminate |]].
      * change (join sep ("" :: h :: t)) with (String sep (join sep (h :: t))).
        by rewrite IHj.
      * by constructor.
    + split; [| split; [discriminate |]].
      * destruct t as [| h' t].
        -- cbn [join] in IHj |- *. by rewrite IHj.
        -- rewrite <- IHj. reflexivity.
      * inversion IHf as [| ? ? Hh Ht]; subst. constructor; [| exact Ht].
        rewrite includes_char, Hh. apply Ascii.eqb_neq in Hne.
        by rewrite Hne.
Qed.

(** ** Camera names from mail addresses *)

Lemma smtp_local_part address local domain :
  includes "@" local = false ->
  address = local \/ address = local +:+ String "@" domain ->
  default "" (split "@" address !! 0%nat) = local.
Proof.
  intros Hat [-> | ->].
  - by rewrite (split_no_sep _ _ Hat).
  - by rewrite (split_head_app _ _ _ Hat).
Qed.

(** X15. A recipient whose local part contains neither "@" nor the
    configured delimiter names the camera literally: the camera name is
    the local part, unchanged, whether or not a domain follows. *)
Theorem smtp_name_plain space_replace address local domain :
  space_replace <> "" ->
  includes "@" local = false ->
  includes space_replace local = false ->
  address = local \/ address = local +:+ String "@" domain ->
  smtp_name space_replace address = local.
Proof.
  intros Hpat Hat Habs Haddr. unfold smtp_name, replace_all.
  rewrite (smtp_local_part _ _ _ Hat Haddr).
  apply String.eqb_neq in Hpat. rewrite Hpat.
  by apply replace_from_absent.
Qed.

Lemma smtp_name_plain_witness :
  smtp_name "+" "Garage@camera.ui" = "Garage"
  /\ smtp_onData "+" "8181" ["Garage@camera.ui"]
     = ["http://127.0.0.1:8181/motion?Garage"].
Proof.
  assert (H : smtp_name "+" "Garage@camera.ui" = "Garage").
  { apply (smtp_name_plain "+" "Garage@camera.ui" "Garage" "camera.ui");
      [discriminate | reflexivity | reflexivity | by right]. }
  split; [exact H |]. unfold smtp_onData. simpl map. by rewrite H.
Defined.

Lemma map_chars_no_at f s :
  (forall a, f a = "@"%char -> a = "@"%char) ->
  includes "@" s = false -> includes "@" (map_chars f s) = false.
Proof.
  intros Hf. induction s as [| a s IH]; [reflexivity |].
  cbn [map_chars]. rewrite !includes_char. intros H.
  apply orb_false_iff in H as [Ha Hs]. rewrite (IH Hs), orb_false_r.
  apply Ascii.eqb_neq. intros E. apply Hf in E. apply Ascii.eqb_neq in Ha.
  contradiction.
Qed.

(** X16. Blanks survive the trip through a mail address when the delimiter
    is one character: for a camera name that contains neither "@" nor the
    delimiter, the address whose local part is the name with every blank
    written as the delimiter yields the name again. *)
Theorem smtp_name_round_trip (d : ascii) (cameraName domain : string) :
  d <> "@"%char ->
  includes "@" cameraName = false ->
  includes (String d "") cameraName = false ->
  smtp_name (String d "")
    (map_chars (fun c => if Ascii.eqb c " " then d else c) cameraName
     +:+ String "@" domain)
  = cameraName.
Proof.
  intros Hd Hat Hdel. unfold smtp_name, replace_all.
  rewrite split_head_app.
  - simpl default. simpl String.eqb.
    replace (String.eqb (String d "") "") with false by reflexivity.
    rewrite replace_from_char. clear Hat.
    induction cameraName as [| a s IH]; [reflexivity |].
    rewrite includes_char in Hdel. apply orb_false_iff in Hdel as [Ha Hs].
    cbn [map_chars]. rewrite (IH Hs). f_equal.
    destruct (Ascii.eqb_spec a " ") as [-> | Hne].
    + by rewrite Ascii.eqb_refl.
    + by rewrite Ha.
  - apply map_chars_no_at; [| exact Hat].
    intros a. destruct (Ascii.eqb a " "); [| done]. intros E. congruence.
Qed.

Lemma smtp_name_round_trip_witness :
  smtp_name "+" "Front+Door@camera.ui" = "Front Door".
Proof.
  apply (smtp_name_round_trip "+" "Front Door" "camera.ui");
    [discriminate | reflexivity | reflexivity].
Defined.

(** ** The trigger type of a request *)

(** X17. For a path name "/<segment>" or "/<segment>/<rest>" that does not
    contain "/reset", where the segment has no "/", the handler hands the
    segment itself to the resolver as trigger type ("motion", "doorbell" or
    any other word, also the empty one) together with [state = true]. *)
Theorem first_segment_is_trigger_type (segment rest path : string) :
  includes "/" segment = false ->
  path = String "/" segment \/ path = String "/" (segment +:+ String "/" rest) ->
  includes "/reset" path = false ->
  http_trigger path = (Some segment, true).
Proof.
  intros Hseg Hpath Hreset. rewrite (http_trigger_on_other _ Hreset).
  f_equal. destruct Hpath as [-> | ->]; cbn [split]; rewrite Ascii.eqb_refl.
  - by rewrite (split_no_sep _ _ Hseg).
  - change (("" :: split "/" (segment +:+ String "/" rest)) !! 1%nat)
      with (split "/" (segment +:+ String "/" rest) !! 0%nat).
    by apply split_head_app.
Qed.

Lemma first_segment_is_trigger_type_witness :
  http_trigger "/doorbell/front" = (Some "doorbell", true)
  /\ http_trigger "/custom" = (Some "custom", true).
Proof.
  split.
  - apply (first_segment_is_trigger_type "doorbell" "front");
      [reflexivity | by right | reflexivity].
  - apply (first_segment_is_trigger_type "custom" "");
      [reflexivity | by left | reflexivity].
Defined.

(** A timeout beyond the runtime's maximum runs after 1 ms: with
    [motionTimeout = 2147484] the requested delay is 2147484000 ms. *)
Example huge_timeout_is_one_millisecond :
  motionTimers
    (snd (handleMotion
            [Some {| name := "Attic"; recordOnMovement := true;
                     motionTimeout := 2147484 |}]
            (Some "motion") "Attic" true "http" sample_result None initial))
    !! "Attic"
  = Some {| timer_id := 0; timer_delay := 1 |}.
Proof. vm_compute. reflexivity. Qed.
